(** * Markov chain construction and sampling (package chain)

    A shallow embedding of the chain package: the link and chain data
    structures, the per-stream accumulator [buildChain], the merger
    [mergeChains], the sampler [GetNextToken], the filtered token sources
    and the concurrent orchestrators [BuildChainFromSources] and
    [BuildChainFromScanners]. *)

From Stdlib Require Import ZArith Lia PrimFloat Uint63.
From stdpp Require Import gmap strings list fin_maps.

Local Open Scope Z_scope.

(** ** Go's [int]: 64-bit two's complement *)

Module GoInt.

Definition minInt : Z := - 2 ^ 63.
Definition maxInt : Z := 2 ^ 63 - 1.

(** The value an arithmetic result takes once stored in an [int]. *)
Definition wrap (z : Z) : Z := (z + 2 ^ 63) mod 2 ^ 64 - 2 ^ 63.

(** [a + b] on [int]. *)
Definition add (a b : Z) : Z := wrap (a + b).

Definition in_range (z : Z) : Prop := minInt <= z <= maxInt.

(** [float64(z)] for an [int] z: round to nearest, ties to even. *)
Definition to_float64 (z : Z) : float :=
  if Z.eqb z minInt then (-9223372036854775808)%float
  else if Z.ltb z 0 then PrimFloat.opp (PrimFloat.of_uint63 (Uint63.of_Z (- z)))
  else PrimFloat.of_uint63 (Uint63.of_Z z).

End GoInt.

(** ** Links and chains *)

(** [singleTokenLink]: [Token] is the one-element key array. *)
Record singleTokenLink := mkLink {
  Token : string;
  NextTokenOccurrences : gmap string Z;
  Total : Z
}.

(** [singleKeyChain.Links]: a chain is its map from token to link. *)
Abbreviation singleKeyChain := (gmap string singleTokenLink).

(** The link literal of [buildChain] and [mergeChains]: an empty occurrence
    map and the zero [Total]. *)
Definition newLink (key : string) : singleTokenLink :=
  mkLink key ∅ 0.

(** [m[k]] on a [map[string]int]: the zero value when the key is absent. *)
Definition occ_get (m : gmap string Z) (k : string) : Z := default 0 (m !! k).

(** An order in which a [range] over the map may visit its entries: Go leaves
    it unspecified, every permutation of the entries is possible. *)
Definition range_order {A} (m : gmap string A) (entries : list (string * A)) : Prop :=
  entries ≡ₚ map_to_list m.

(** ** Per-stream accumulation *)

(** The closure [appendToChain] of [buildChain]. *)
Definition appendToChain (links : singleKeyChain) (prev next : string) : singleKeyChain :=
  let link := match links !! prev with
              | None => newLink prev
              | Some extantLink => extantLink
              end in
  let occ := <[next := GoInt.add (occ_get (NextTokenOccurrences link) next) 1]>
               (NextTokenOccurrences link) in
  <[prev := mkLink (Token link) occ (GoInt.add (Total link) 1)]> links.

(** The loop of [buildChain] over the tokens received on the channel:
    the state is the table and [lastVal]. *)
Fixpoint buildChain_loop (links : singleKeyChain) (lastVal : string) (tokens : list string)
  : singleKeyChain * string :=
  match tokens with
  | [] => (links, lastVal)
  | val :: rest => buildChain_loop (appendToChain links lastVal val) val rest
  end.

(** [buildChain], on the sequence of values the channel delivers before it
    is closed. *)
Definition buildChain (tokenChannel : list string) : singleKeyChain :=
  let '(links, lastVal) := buildChain_loop ∅ "" tokenChannel in
  appendToChain links lastVal "".

(** ** Merging *)

(** The inner range of [mergeChains] over [link.NextTokenOccurrences]:
    [mergedLink.NextTokenOccurrences[k] += v] for the entries in the order
    visited. *)
Definition addOccurrences (dst : gmap string Z) (entries : list (string * Z))
  : gmap string Z :=
  foldl (λ m '(k, v), <[k := GoInt.add (occ_get m k) v]> m) dst entries.

(** The body of the range over [chain.Links], for one link and the order
    [entries] in which its occurrence map is visited. *)
Definition mergeLink (mergedLinks : singleKeyChain)
    (visited : singleTokenLink * list (string * Z)) : singleKeyChain :=
  let '(link, entries) := visited in
  let key := Token link in
  let mergedLink := match mergedLinks !! key with
                    | None => newLink key
                    | Some extantLink => extantLink
                    end in
  <[key := mkLink (Token mergedLink)
                  (addOccurrences (NextTokenOccurrences mergedLink) entries)
                  (GoInt.add (Total mergedLink) (Total link))]> mergedLinks.

(** [mergeChains] for given visiting orders: one list per chain, holding
    its links in the order the outer range visits them, each with the order
    in which the inner range visits its occurrences. *)
Definition mergeChains_visiting
    (visits : list (list (singleTokenLink * list (string * Z)))) : singleKeyChain :=
  foldl (λ mergedLinks visit, foldl mergeLink mergedLinks visit) ∅ visits.

(** [visit] is a way the two ranges can go through [chain]. *)
Definition visit_of (chain : singleKeyChain)
    (visit : list (singleTokenLink * list (string * Z))) : Prop :=
  visit.*1 ≡ₚ (map_to_list chain).*2
  ∧ Forall (λ '(l, entries), range_order (NextTokenOccurrences l) entries) visit.

(** The visit in the order of [map_to_list]. *)
Definition canonical_visit (chain : singleKeyChain)
  : list (singleTokenLink * list (string * Z)) :=
  (λ l, (l, map_to_list (NextTokenOccurrences l))) <$> (map_to_list chain).*2.

(** [mergeChains]; by [mergeChains_any_order] below every visiting order
    gives this chain. *)
Definition mergeChains (chains : list singleKeyChain) : singleKeyChain :=
  mergeChains_visiting (canonical_visit <$> chains).

(** A count table as the accumulator and the merger produce them: every
    link is stored under its own source token, and the counts are values of
    Go's [int]. *)
Definition count_table (c : singleKeyChain) : Prop :=
  ∀ key l, c !! key = Some l →
    Token l = key ∧ GoInt.in_range (Total l)
    ∧ ∀ k v, NextTokenOccurrences l !! k = Some v → GoInt.in_range v.

(** ** Queries on a link *)

Definition GetProbabilityOfToken (l : singleTokenLink) (nextToken : string) : float * bool :=
  match NextTokenOccurrences l !! nextToken with
  | None => (0%float, false)
  | Some occurrences =>
      (PrimFloat.div (GoInt.to_float64 occurrences) (GoInt.to_float64 (Total l)), true)
  end.

(** [RetrieveMarkovLink]: the link (Go's nil pointer is [None]) and whether
    the key was present. *)
Definition RetrieveMarkovLink (c : singleKeyChain) (token : string)
  : option singleTokenLink * bool :=
  match c !! token with
  | None => (None, false)
  | Some link => (Some link, true)
  end.

(** [RetrieveNextTokenPossibilities], for the order [entries] in which the
    [range] visits the occurrence map. *)
Definition RetrieveNextTokenPossibilities (entries : list (string * Z)) : list string :=
  entries.*1.

(** ** Sampling *)

(** The [range] loop of [GetNextToken]: [None] when the loop ends without
    returning. *)
Fixpoint GetNextToken_loop (sum goalSum : Z) (entries : list (string * Z)) : option string :=
  match entries with
  | [] => None
  | (k, v) :: rest =>
      let sum := GoInt.add sum v in
      if Z.leb goalSum sum then Some k else GetNextToken_loop sum goalSum rest
  end.

(** The random source, as the sampler uses it: [rand n] is what
    [rand.Intn(n)] returns, a value of [0, n) for [0 < n]; [Intn] panics
    for [n <= 0]. *)
Definition Rand := Z -> Z.

Definition Intn (rand : Rand) (n : Z) : option Z :=
  if Z.leb n 0 then None else Some (rand n).

(** [GetNextToken], for the visiting order [entries] of the link's
    occurrence map; [None] is the panic of [rand.Intn]. *)
Definition GetNextToken (l : singleTokenLink) (entries : list (string * Z)) (rand : Rand)
  : option string :=
  match Intn rand (Total l) with
  | None => None
  | Some goalSum => Some (default "" (GetNextToken_loop 0 goalSum entries))
  end.

(** [CalculateNextToken]; [entries] is the visiting order of the found
    link's occurrence map. *)
Definition CalculateNextToken (c : singleKeyChain) (token : string)
    (entries : list (string * Z)) (rand : Rand) : option (string * bool) :=
  match c !! token with
  | None => Some ("", false)
  | Some link =>
      match GetNextToken link entries rand with
      | None => None
      | Some nextToken => Some (nextToken, true)
      end
  end.

(** How many of the draws [0 .. total-1] make the sampler return [x]. *)
Definition draws_returning (entries : list (string * Z)) (total : Z) (x : string) : nat :=
  length (filter (λ goalSum, default "" (GetNextToken_loop 0 goalSum entries) = x)
                 (seqZ 0 total)).

(** The exact (unbounded) sum of a list of counts. *)
Definition sumZ (l : list Z) : Z := foldr Z.add 0 l.

(** The exact sum of the counts of an occurrence map. *)
Definition sum_occurrences (m : gmap string Z) : Z := sumZ (map_to_list m).*2.

(** The exact sum of [f] over the values of a map. *)
Definition map_sum {A} (f : A → Z) (m : gmap string A) : Z :=
  sumZ (f <$> (map_to_list m).*2).

(** The invariant of a link: the total is the sum of the occurrence counts,
    and every count is positive. *)
Definition link_invariant (l : singleTokenLink) : Prop :=
  Total l = sum_occurrences (NextTokenOccurrences l)
  ∧ ∀ k v, NextTokenOccurrences l !! k = Some v → 0 < v.

Definition chain_invariant (c : singleKeyChain) : Prop :=
  ∀ key l, c !! key = Some l → link_invariant l.

(** The number of observations a table holds: the sum of its links' totals. *)
Definition chain_weight (c : singleKeyChain) : Z := map_sum Total c.

(** The number of transitions a stream of tokens records: one per token
    and the final one to the sentinel. *)
Definition transitions (tokens : list string) : Z := Z.of_nat (length tokens) + 1.

(** The link with occurrences [{x:1, y:3}]. *)
Definition link_x1_y3 : singleTokenLink :=
  mkLink "k" {[ "x" := 1; "y" := 3 ]} 4.

(** ** Token sources and filters *)

(** Go's [error] values as the package tells them apart: [io.EOF] and any
    other error. A nil error is [None] of [option error]. *)
Inductive error :=
| EOF
| Failure (msg : string).

Global Instance error_eq_dec : EqDecision error.
Proof. solve_decision. Defined.

(** What [NextToken] returns: the token and the error. *)
Abbreviation Result := (string * option error)%type.

(** [SourceFilter]: [FilterToken] as a function of the candidate. *)
Definition SourceFilter := string → list string * option error.

(** [bufio.Scanner], as far as the package uses it: the tokens the
    following successful calls of [Scan] deliver, the token of the last
    call ([Text]), and the non-EOF error, if any, that ends the scan after
    these tokens ([Err] reports no error for a plain end of input). *)
Record Scanner := mkScanner {
  sc_tokens : list string;
  sc_text : string;
  sc_failure : option string
}.

Definition Scan (sc : Scanner) : bool * Scanner :=
  match sc_tokens sc with
  | t :: rest => (true, mkScanner rest t (sc_failure sc))
  | [] => (false, mkScanner [] "" (sc_failure sc))
  end.

Definition Text (sc : Scanner) : string := sc_text sc.

Definition Err (sc : Scanner) : option error :=
  match sc_tokens sc with
  | [] => Failure <$> sc_failure sc
  | _ :: _ => None
  end.

(** A scanner that has not been used yet. *)
Definition newScanner (tokens : list string) (failure : option string) : Scanner :=
  mkScanner tokens "" failure.

(** The implementations of the [TokenSource] interface: the package's
    [bufioScannerSource] and [filteredSource], and [externalSource] for an
    implementation from outside the package, given by what its calls return
    one after the other and the number of calls made so far. *)
Inductive TokenSource :=
| externalSource (script : nat → Result) (calls : nat)
| bufioScannerSource (src : Scanner)
| filteredSource (src : TokenSource) (filter : SourceFilter)
                 (queue : list string) (index : nat).

(** The [for] loop of [filteredSource.NextToken]; [next] is [NextToken] of
    the wrapped source, and [None] stands for a loop that is still running
    when the fuel is used up. *)
Fixpoint filterLoop (next : TokenSource → option (Result * TokenSource))
    (filter : SourceFilter) (queue : list string) (index : nat)
    (fuel : nat) (src : TokenSource) : option (Result * TokenSource) :=
  match fuel with
  | O => None
  | S fuel' =>
      match next src with
      | None => None
      | Some ((candidate, readErr), src') =>
          match readErr with
          | Some e => Some (("", Some e), filteredSource src' filter queue index)
          | None =>
              match filter candidate with
              | (_, Some e) => Some (("", Some e), filteredSource src' filter queue index)
              | ([], None) => filterLoop next filter queue index fuel' src'
              | ([t], None) => Some ((t, None), filteredSource src' filter queue index)
              | ((t :: _) as tokens, None) =>
                  Some ((t, None), filteredSource src' filter tokens 1)
              end
          end
      end
  end.

(** [NextToken] of the three implementations. *)
Fixpoint NextToken (fuel : nat) (s : TokenSource) : option (Result * TokenSource) :=
  match fuel with
  | O => None
  | S fuel' =>
      match s with
      | externalSource script calls => Some (script calls, externalSource script (S calls))
      | bufioScannerSource src =>
          let '(ok, src') := Scan src in
          if ok then Some ((Text src', None), bufioScannerSource src')
          else match Err src' with
               | None => Some (("", Some EOF), bufioScannerSource src')
               | Some e => Some (("", Some e), bufioScannerSource src')
               end
      | filteredSource src filter queue index =>
          let queueLen := length queue in
          if (index <? queueLen)%nat then
            Some ((default "" (queue !! index), None),
                  filteredSource src filter queue (S index))
          else
            let '(queue, index) :=
              if (queueLen =? 0)%nat then (queue, index) else ([], 0%nat) in
            filterLoop (NextToken fuel') filter queue index fuel' src
      end
  end.

(** [s.NextToken()] returns [r] and leaves the source as [s']. *)
Definition returns (s : TokenSource) (r : Result) (s' : TokenSource) : Prop :=
  ∃ fuel, NextToken fuel s = Some (r, s').

(** The source delivers the tokens [tokens] and then the error [e]. *)
Inductive drains : TokenSource → list string → error → Prop :=
| drains_end s t e s' :
    returns s (t, Some e) s' → drains s [] e
| drains_token s t s' tokens e :
    returns s (t, None) s' → drains s' tokens e → drains s (t :: tokens) e.

Definition SourcesFromScanners (tokenSources : list Scanner) : list TokenSource :=
  bufioScannerSource <$> tokenSources.

Definition ApplyFiltersToSource (source : TokenSource) (filters : list SourceFilter)
  : TokenSource :=
  foldl (λ source v, filteredSource source v [] 0%nat) source filters.

Definition MakeFilteredTokenSources (filter : SourceFilter) (sources : list TokenSource)
  : list TokenSource :=
  (λ v, filteredSource v filter [] 0%nat) <$> sources.

(** [strings.ToLower] and [strings.TrimSpace] on ASCII text: the letters A
    to Z and the white space characters tab, line feed, vertical tab, form
    feed, carriage return and space. *)
Definition lower_ascii (c : Strings.Ascii.ascii) : Strings.Ascii.ascii :=
  let n := Strings.Ascii.nat_of_ascii c in
  if ((65 <=? n) && (n <=? 90))%nat then Strings.Ascii.ascii_of_nat (n + 32) else c.

Fixpoint ToLower (s : string) : string :=
  match s with
  | EmptyString => EmptyString
  | String c rest => String (lower_ascii c) (ToLower rest)
  end.

Fixpoint TrimLeft (s : string) : string :=
  match s with
  | EmptyString => EmptyString
  | String c rest => if Ascii.is_space c then TrimLeft rest else s
  end.

Definition TrimSpace (s : string) : string :=
  String.rev (TrimLeft (String.rev (TrimLeft s))).

Definition LowercaseFilter : SourceFilter :=
  λ candidate, ([ToLower candidate], None).

Definition TrimFilter : SourceFilter :=
  λ candidate, ([TrimSpace candidate], None).

(** What the scanner source returns once the scanner's tokens are used up:
    [io.EOF] or the scanner's error. *)
Definition scanner_end (sc : Scanner) : error :=
  match sc_failure sc with
  | None => EOF
  | Some msg => Failure msg
  end.

(** The loop of [filteredSource.NextToken] as a relation: what it returns,
    reading from [src] with the queue state [queue], [index]. *)
Inductive pulls (filter : SourceFilter) (queue : list string) (index : nat) :
  TokenSource → Result → TokenSource → Prop :=
| pulls_read_error src t e src' :
    returns src (t, Some e) src' →
    pulls filter queue index src ("", Some e) (filteredSource src' filter queue index)
| pulls_filter_error src c src' tokens e :
    returns src (c, None) src' → filter c = (tokens, Some e) →
    pulls filter queue index src ("", Some e) (filteredSource src' filter queue index)
| pulls_none src c src' r s'' :
    returns src (c, None) src' → filter c = ([], None) →
    pulls filter queue index src' r s'' →
    pulls filter queue index src r s''
| pulls_one src c src' t :
    returns src (c, None) src' → filter c = ([t], None) →
    pulls filter queue index src (t, None) (filteredSource src' filter queue index)
| pulls_many src c src' t t' tokens :
    returns src (c, None) src' → filter c = (t :: t' :: tokens, None) →
    pulls filter queue index src (t, None)
          (filteredSource src' filter (t :: t' :: tokens) 1).

(** The queue state with which [filteredSource.NextToken] enters its loop. *)
Definition enter_loop (queue : list string) (index : nat) : list string * nat :=
  if (length queue =? 0)%nat then (queue, index) else ([], 0%nat).

(** From [s], successive calls deliver the tokens [tokens] and leave the
    source as [s']. *)
Inductive delivers : TokenSource → list string → TokenSource → Prop :=
| delivers_nil s : delivers s [] s
| delivers_snoc s tokens s1 t s2 :
    delivers s tokens s1 → returns s1 (t, None) s2 → delivers s (tokens ++ [t]) s2.

(** What a scanner has delivered when it is [sc], having started as [sc0]. *)
Definition scanned (sc0 : Scanner) (seen : list string) (sc : Scanner) : Prop :=
  sc_tokens sc0 = seen ++ sc_tokens sc ∧ sc_failure sc = sc_failure sc0.

(** The tokens the channel version of [BuildChainFromScanners] passes on:
    the non-empty ones. *)
Definition nonempty_tokens (tokens : list string) : list string :=
  filter (λ t, t ≠ "") tokens.

(** A filter that fails on the candidate [bad] and passes every other
    candidate on unchanged. *)
Definition rejecting_filter (bad : string) : SourceFilter :=
  λ candidate,
    if decide (candidate = bad) then ([], Some (Failure "rejected"))
    else ([candidate], None).

(** What a filter makes of a stream that delivers [tokens] and then the
    error [e]: the expansions of the candidates in order, up to the first
    candidate on which the filter fails. *)
Fixpoint filtered_tokens (filter : SourceFilter) (tokens : list string) (e : error)
  : list string * error :=
  match tokens with
  | [] => ([], e)
  | candidate :: rest =>
      match filter candidate with
      | (_, Some e') => ([], e')
      | (expansion, None) =>
          let '(out, e') := filtered_tokens filter rest e in (expansion ++ out, e')
      end
  end.

(** ** The other stock filters *)

(** [SourceFilterFunc] and [MakeFuncFilter]: the filter whose [FilterToken]
    calls the function. *)
Definition SourceFilterFunc := string → list string * option error.

Definition MakeFuncFilter (filter : SourceFilterFunc) : SourceFilter :=
  λ candidate, filter candidate.

Definition SubstitutionFilter (substitutions : gmap string string) : SourceFilter :=
  MakeFuncFilter (λ candidate,
    match substitutions !! candidate with
    | Some substitution => ([substitution], None)
    | None => ([candidate], None)
    end).

(** [s] without the leading [prefix], when [s] starts with it. *)
Fixpoint stripPrefix (s prefix : string) {struct prefix} : option string :=
  match prefix with
  | EmptyString => Some s
  | String p prefix' =>
      match s with
      | EmptyString => None
      | String c s' => if decide (c = p) then stripPrefix s' prefix' else None
      end
  end.

(** [strings.TrimPrefix]. *)
Definition TrimPrefix (s prefix : string) : string :=
  default s (stripPrefix s prefix).

(** The loop of the iterating [PrefixFilter]; [None] stands for a loop
    still running when the fuel is used up. *)
Fixpoint prefixLoop (fuel : nat) (prefix trimmed : string) : option string :=
  match fuel with
  | O => None
  | S fuel' =>
      if decide (trimmed = "") then Some trimmed
      else
        let next := TrimPrefix trimmed prefix in
        if decide (next = trimmed) then Some trimmed
        else prefixLoop fuel' prefix next
  end.

(** [PrefixFilter]. The loop strictly shortens the string with each turn,
    so the fuel of one more than its length is never used up
    ([prefixLoop_returns]). *)
Definition PrefixFilter (prefix : string) (iterate : bool) : SourceFilter :=
  MakeFuncFilter (λ candidate,
    if iterate then
      match prefixLoop (S (String.length candidate)) prefix candidate with
      | Some trimmed => ([trimmed], None)
      | None => ([], None)
      end
    else ([TrimPrefix candidate prefix], None)).

(** [n] copies of [prefix] in a row. *)
Fixpoint repeat_string (prefix : string) (n : nat) : string :=
  match n with
  | O => ""
  | S n' => prefix +:+ repeat_string prefix n'
  end.

(** ** The orchestrators *)

(** What a step of a producer goroutine does to the channels: nothing, a
    send on its token channel, a send on the error channel, or the close of
    its token channel. *)
Inductive action :=
| ATau
| ASend (t : string)
| AError (e : error)
| AClose.

(** The goroutine that [BuildChainFromSources] starts for a source: where
    it stands in its loop. *)
Inductive source_pc :=
| Calling
| Sending (t : string)
| Failing (e : error)
| Exited.

Inductive source_step :
  TokenSource * source_pc → action → TokenSource * source_pc → Prop :=
| source_token s t s' :
    returns s (t, None) s' →
    source_step (s, Calling) ATau (s', Sending t)
| source_eof s t s' :
    returns s (t, Some EOF) s' →
    source_step (s, Calling) AClose (s', Exited)
| source_error s t e s' :
    returns s (t, Some e) s' → e ≠ EOF →
    source_step (s, Calling) ATau (s', Failing e)
| source_send s t :
    source_step (s, Sending t) (ASend t) (s, Calling)
| source_report s e :
    source_step (s, Failing e) (AError e) (s, Calling).

(** The goroutine that the channel version of [BuildChainFromScanners]
    starts for a scanner. *)
Inductive scanner_pc :=
| Scanning
| SendingText (t : string)
| Reporting (e : error)
| Closing
| Finished.

Inductive scanner_step :
  Scanner * scanner_pc → action → Scanner * scanner_pc → Prop :=
| scanner_token sc sc' :
    Scan sc = (true, sc') → Text sc' ≠ "" →
    scanner_step (sc, Scanning) ATau (sc', SendingText (Text sc'))
| scanner_empty sc sc' :
    Scan sc = (true, sc') → Text sc' = "" →
    scanner_step (sc, Scanning) ATau (sc', Scanning)
| scanner_send sc t :
    scanner_step (sc, SendingText t) (ASend t) (sc, Scanning)
| scanner_failed sc sc' e :
    Scan sc = (false, sc') → Err sc' = Some e → e ≠ EOF →
    scanner_step (sc, Scanning) ATau (sc', Reporting e)
| scanner_ended sc sc' :
    Scan sc = (false, sc') → Err sc' = None ∨ Err sc' = Some EOF →
    scanner_step (sc, Scanning) ATau (sc', Closing)
| scanner_report sc e :
    scanner_step (sc, Reporting e) (AError e) (sc, Closing)
| scanner_close sc :
    scanner_step (sc, Closing) AClose (sc, Finished).

(** The capacity of a token channel: [make(chan string, 20)]. *)
Definition tokChan_capacity : nat := 20.

(** What [BuildChainFromSources] and the channel version of
    [BuildChainFromScanners] return: the chain and the error. *)
Abbreviation Outcome := (option singleKeyChain * option error)%type.

Section Orchestrator.

Context {P : Type}.

(** One stream: its producer goroutine, its token channel (the buffered
    values and whether it is closed), and the goroutine of
    [BuildSingleLinkChain] running [buildChain] on the channel (the table,
    [lastVal], and whether it has handed its chain over). *)
Record stream := mkStream {
  producer : P;
  tokChan : list string;
  closed : bool;
  links : singleKeyChain;
  lastVal : string;
  built : bool
}.

(** The state of a build: the streams, [chainSlice], and what the caller
    has received from its [select], if anything. *)
Record build_state := mkState {
  streams : list stream;
  chainSlice : list singleKeyChain;
  returned : option Outcome
}.

Context (pstep : P → action → P → Prop).

Inductive step : build_state → build_state → Prop :=
| step_tau σ i st p' :
    streams σ !! i = Some st →
    pstep (producer st) ATau p' →
    step σ (mkState
      (<[i := mkStream p' (tokChan st) (closed st) (links st) (lastVal st) (built st)]>
         (streams σ))
      (chainSlice σ) (returned σ))
| step_send σ i st t p' :
    streams σ !! i = Some st →
    pstep (producer st) (ASend t) p' →
    closed st = false →
    (length (tokChan st) < tokChan_capacity)%nat →
    step σ (mkState
      (<[i := mkStream p' (tokChan st ++ [t]) false (links st) (lastVal st) (built st)]>
         (streams σ))
      (chainSlice σ) (returned σ))
| step_close σ i st p' :
    streams σ !! i = Some st →
    pstep (producer st) AClose p' →
    closed st = false →
    step σ (mkState
      (<[i := mkStream p' (tokChan st) true (links st) (lastVal st) (built st)]>
         (streams σ))
      (chainSlice σ) (returned σ))
| step_error σ i st e p' :
    streams σ !! i = Some st →
    pstep (producer st) (AError e) p' →
    returned σ = None →
    step σ (mkState
      (<[i := mkStream p' (tokChan st) (closed st) (links st) (lastVal st) (built st)]>
         (streams σ))
      (chainSlice σ) (Some (None, Some e)))
| step_receive σ i st val rest :
    streams σ !! i = Some st →
    built st = false →
    tokChan st = val :: rest →
    step σ (mkState
      (<[i := mkStream (producer st) rest (closed st)
                       (appendToChain (links st) (lastVal st) val) val false]>
         (streams σ))
      (chainSlice σ) (returned σ))
| step_finish σ i st :
    streams σ !! i = Some st →
    built st = false →
    tokChan st = [] →
    closed st = true →
    let resultingChain := appendToChain (links st) (lastVal st) "" in
    step σ (mkState
      (<[i := mkStream (producer st) [] true resultingChain (lastVal st) true]>
         (streams σ))
      (chainSlice σ ++ [resultingChain]) (returned σ))
| step_merge σ visits :
    Forall (λ st, built st = true) (streams σ) →
    returned σ = None →
    Forall2 visit_of (chainSlice σ) visits →
    step σ (mkState (streams σ) (chainSlice σ)
                    (Some (Some (mergeChains_visiting visits), None))).

Definition initial_stream (p : P) : stream := mkStream p [] false ∅ "" false.

Definition initial (producers : list P) : build_state :=
  mkState (initial_stream <$> producers) [] None.

(** The build started with these producers can return [out]. *)
Definition build_returns (producers : list P) (out : Outcome) : Prop :=
  ∃ σ, rtc step (initial producers) σ ∧ returned σ = Some out.

(** What a producer does up to its first send on the error channel: from
    [p] it sends the tokens [tokens] and reaches [p'], having closed its
    channel or not. *)
Inductive runs : P → list string → bool → P → Prop :=
| runs_nil p : runs p [] false p
| runs_tau p tokens b p' p'' :
    runs p tokens b p' → pstep p' ATau p'' → runs p tokens b p''
| runs_send p tokens p' t p'' :
    runs p tokens false p' → pstep p' (ASend t) p'' → runs p (tokens ++ [t]) false p''
| runs_close p tokens p' p'' :
    runs p tokens false p' → pstep p' AClose p'' → runs p tokens true p''.

(** The producer sends [tokens] and closes its channel, without an error. *)
Definition closes (p : P) (tokens : list string) : Prop :=
  ∃ p', runs p tokens true p'.

(** The producer comes to send [e] on the error channel. *)
Definition fails (p : P) (e : error) : Prop :=
  ∃ tokens b p' p'', runs p tokens b p' ∧ pstep p' (AError e) p''.

(** The chains handed over so far, in the order of the streams. *)
Fixpoint handed_over (l : list stream) : list singleKeyChain :=
  match l with
  | [] => []
  | st :: rest => if built st then links st :: handed_over rest else handed_over rest
  end.

(** A stream whose producer started as [p0]: what the producer has sent is
    what [buildChain] has consumed followed by what is in the channel. *)
Definition stream_ok (p0 : P) (st : stream) : Prop :=
  ∃ consumed,
    runs p0 (consumed ++ tokChan st) (closed st) (producer st)
    ∧ if built st
      then tokChan st = [] ∧ closed st = true ∧ links st = buildChain consumed
      else buildChain_loop ∅ "" consumed = (links st, lastVal st).

(** The invariant of a build started with [producers]. *)
Definition build_invariant (producers : list P) (σ : build_state) : Prop :=
  match returned σ with
  | None =>
      Forall2 stream_ok producers (streams σ)
      ∧ chainSlice σ ≡ₚ handed_over (streams σ)
  | Some (Some c, None) =>
      ∃ tokenss, Forall2 closes producers tokenss
                 ∧ c = mergeChains (buildChain <$> tokenss)
  | Some (None, Some e) => ∃ i p, producers !! i = Some p ∧ fails p e
  | Some _ => False
  end.

End Orchestrator.

Arguments stream : clear implicits.
Arguments build_state : clear implicits.

Definition BuildChainFromSources (tokenSources : list TokenSource) (out : Outcome) : Prop :=
  build_returns source_step ((λ v, (v, Calling)) <$> tokenSources) out.

(** [BuildChainFromScanners] feeding the scanners' tokens into the channels
    itself. *)
Module Channels.
Definition BuildChainFromScanners (tokenSources : list Scanner) (out : Outcome) : Prop :=
  build_returns scanner_step ((λ v, (v, Scanning)) <$> tokenSources) out.
End Channels.

(** [BuildChainFromScanners] as the convenience function over
    [SourcesFromScanners] and [BuildChainFromSources]. *)
Module Adapter.
Definition BuildChainFromScanners (tokenSources : list Scanner) (out : Outcome) : Prop :=
  BuildChainFromSources (SourcesFromScanners tokenSources) out.
End Adapter.

(** ** Reading counts off a chain *)

(** How often [next] is recorded after [prev], and the total of [prev]'s
    link; zero when [prev] has no link. *)
Definition transition_count (c : singleKeyChain) (prev next : string) : Z :=
  match c !! prev with
  | Some l => occ_get (NextTokenOccurrences l) next
  | None => 0
  end.

Definition link_total (c : singleKeyChain) (prev : string) : Z :=
  from_option Total 0 (c !! prev).

(** How often [next] directly follows [prev] in a sequence, and how often
    [prev] occurs in it. *)
Fixpoint count_pairs (prev next : string) (l : list string) : Z :=
  match l with
  | a :: (b :: _) as rest =>
      (if decide (a = prev ∧ b = next) then 1 else 0) + count_pairs prev next rest
  | _ => 0
  end.

Fixpoint count_token (prev : string) (l : list string) : Z :=
  match l with
  | [] => 0
  | a :: rest => (if decide (a = prev) then 1 else 0) + count_token prev rest
  end.

(** A stream as [buildChain] sees it: between the two sentinels. *)
Definition with_sentinels (tokens : list string) : list string :=
  "" :: tokens ++ [""].

(** * Properties *)

(** ** Arithmetic of [int] *)

Lemma wrap_in_range z : GoInt.in_range (GoInt.wrap z).
Proof.
  unfold GoInt.in_range, GoInt.wrap, GoInt.minInt, GoInt.maxInt.
  pose proof (Z.mod_pos_bound (z + 2 ^ 63) (2 ^ 64)). lia.
Qed.

Lemma wrap_id z : GoInt.in_range z → GoInt.wrap z = z.
Proof.
  unfold GoInt.in_range, GoInt.wrap, GoInt.minInt, GoInt.maxInt. intros Hz.
  rewrite Z.mod_small; lia.
Qed.

Lemma wrap_add_l a b : GoInt.wrap (GoInt.wrap a + b) = GoInt.wrap (a + b).
Proof.
  unfold GoInt.wrap.
  replace ((a + 2 ^ 63) mod 2 ^ 64 - 2 ^ 63 + b + 2 ^ 63)
    with ((a + 2 ^ 63) mod 2 ^ 64 + b) by lia.
  rewrite Zplus_mod_idemp_l. f_equal. f_equal. lia.
Qed.

Lemma wrap_add_r a b : GoInt.wrap (a + GoInt.wrap b) = GoInt.wrap (a + b).
Proof. rewrite (Z.add_comm a), wrap_add_l. f_equal. lia. Qed.

Lemma wrap_wrap a : GoInt.wrap (GoInt.wrap a) = GoInt.wrap a.
Proof. apply wrap_id, wrap_in_range. Qed.

Lemma add_comm a b : GoInt.add a b = GoInt.add b a.
Proof. unfold GoInt.add. f_equal. lia. Qed.

Lemma add_assoc a b c : GoInt.add (GoInt.add a b) c = GoInt.add a (GoInt.add b c).
Proof. unfold GoInt.add. rewrite wrap_add_l, wrap_add_r. f_equal. lia. Qed.

Lemma add_swap a b c : GoInt.add (GoInt.add a b) c = GoInt.add (GoInt.add a c) b.
Proof. unfold GoInt.add. rewrite !wrap_add_l. f_equal. lia. Qed.

Lemma add_in_range a b : GoInt.in_range (GoInt.add a b).
Proof. apply wrap_in_range. Qed.

Lemma add_0_l a : GoInt.in_range a → GoInt.add 0 a = a.
Proof. intros. unfold GoInt.add. by rewrite Z.add_0_l, wrap_id. Qed.

Lemma add_exact a b : GoInt.in_range (a + b) → GoInt.add a b = a + b.
Proof. apply wrap_id. Qed.

Lemma sumZ_cons x l : sumZ (x :: l) = x + sumZ l.
Proof. reflexivity. Qed.

Lemma sumZ_app l1 l2 : sumZ (l1 ++ l2) = sumZ l1 + sumZ l2.
Proof. induction l1 as [|x l1 IH]; simpl; [done | rewrite IH; lia]. Qed.

Lemma sumZ_perm l1 l2 : l1 ≡ₚ l2 → sumZ l1 = sumZ l2.
Proof. induction 1; simpl; lia. Qed.

(** ** The sampler *)

(** The loop returns a key of the visited entries as soon as the wrapped
    sum of everything still to add reaches the goal. *)
Lemma GetNextToken_loop_reaches goalSum entries : ∀ sum,
  GoInt.in_range sum →
  sum < goalSum ∨ entries ≠ [] →
  goalSum ≤ GoInt.wrap (sum + sumZ entries.*2) →
  ∃ k v, GetNextToken_loop sum goalSum entries = Some k ∧ (k, v) ∈ entries.
Proof.
  induction entries as [|[k v] rest IH]; intros sum Hr Hs Hg.
  - simpl in Hg. rewrite Z.add_0_r, wrap_id in Hg by done.
    destruct Hs; [lia | done].
  - simpl. destruct (Z.leb_spec goalSum (GoInt.add sum v)) as [Hle|Hlt].
    + exists k, v. split; [done | apply list_elem_of_here].
    + destruct (IH (GoInt.add sum v)) as (k' & v' & Hk & Hin).
      * apply add_in_range.
      * by left.
      * unfold GoInt.add. rewrite wrap_add_l. simpl in Hg.
        by rewrite Z.add_assoc in Hg.
      * exists k', v'. split; [done | by apply list_elem_of_further].
Qed.

(** C2. On a link whose total is positive and is the sum of its occurrence
    counts, for every drawn goal of [0, total) and every order in which the
    range visits the occurrence map, the running-sum walk returns a key of the
    occurrence map from inside the loop: the fallback after the loop, which
    returns the empty string, is not reached, and [GetNextToken] returns
    that key. *)
Theorem GetNextToken_returns_key (l : singleTokenLink) (entries : list (string * Z))
    (rand : Rand) :
  range_order (NextTokenOccurrences l) entries →
  0 < Total l →
  GoInt.in_range (Total l) →
  Total l = sum_occurrences (NextTokenOccurrences l) →
  0 ≤ rand (Total l) < Total l →
  ∃ k, GetNextToken_loop 0 (rand (Total l)) entries = Some k
       ∧ is_Some (NextTokenOccurrences l !! k)
       ∧ GetNextToken l entries rand = Some k.
Proof.
  intros Hord Hpos Hrange Hsum Hgoal.
  assert (Hs : sumZ entries.*2 = Total l).
  { rewrite Hsum. unfold sum_occurrences. apply sumZ_perm.
    by apply fmap_Permutation. }
  destruct (GetNextToken_loop_reaches (rand (Total l)) entries 0) as (k & v & Hk & Hin).
  - unfold GoInt.in_range, GoInt.minInt, GoInt.maxInt. lia.
  - right. intros ->. simpl in Hs. lia.
  - rewrite Z.add_0_l, Hs, wrap_id by done. lia.
  - exists k. split; [done|]. split.
    + exists v. apply elem_of_map_to_list. by rewrite <- Hord.
    + unfold GetNextToken, Intn.
      destruct (Z.leb_spec (Total l) 0); [lia|]. by rewrite Hk.
Qed.

Lemma GetNextToken_returns_key_witness :
  ∃ k, GetNextToken_loop 0 2 [("x", 1); ("y", 3)] = Some k
       ∧ is_Some (NextTokenOccurrences link_x1_y3 !! k)
       ∧ GetNextToken link_x1_y3 [("x", 1); ("y", 3)] (λ _, 2) = Some k.
Proof.
  apply (GetNextToken_returns_key link_x1_y3 [("x", 1); ("y", 3)] (λ _, 2)).
  - unfold range_order. vm_compute. apply perm_swap.
  - simpl. lia.
  - unfold GoInt.in_range, GoInt.minInt, GoInt.maxInt. simpl. lia.
  - vm_compute. reflexivity.
  - simpl. lia.
Defined.

(** C1. The sampler on the link with occurrences [{x:1, y:3}], total 4, at
    each of the four draws and for both orders in which the range can
    visit the map: visiting x first, draws 0 and 1 return x and draws 2 and
    3 return y (x in two draws of four, not one); visiting y first, every
    draw returns y (x in none). In neither order is x returned in 1/4 of
    the draws and y in 3/4. *)
Theorem GetNextToken_x1_y3_draws :
  (GetNextToken link_x1_y3 [("x", 1); ("y", 3)]) <$> [λ _, 0; λ _, 1; λ _, 2; λ _, 3]
    = [Some "x"; Some "x"; Some "y"; Some "y"]
  ∧ (GetNextToken link_x1_y3 [("y", 3); ("x", 1)]) <$> [λ _, 0; λ _, 1; λ _, 2; λ _, 3]
    = [Some "y"; Some "y"; Some "y"; Some "y"]
  ∧ draws_returning [("x", 1); ("y", 3)] 4 "x" = 2%nat
  ∧ draws_returning [("x", 1); ("y", 3)] 4 "y" = 2%nat
  ∧ draws_returning [("y", 3); ("x", 1)] 4 "x" = 0%nat
  ∧ draws_returning [("y", 3); ("x", 1)] 4 "y" = 4%nat.
Proof. repeat split; vm_compute; reflexivity. Qed.

(** Whatever order the range takes on [{x:1, y:3}], the number of draws
    returning x is not 1 and the number returning y is not 3. *)
Lemma draws_x1_y3_any_order (entries : list (string * Z)) :
  range_order (NextTokenOccurrences link_x1_y3) entries →
  draws_returning entries (Total link_x1_y3) "x" ≠ 1%nat
  ∧ draws_returning entries (Total link_x1_y3) "y" ≠ 3%nat.
Proof.
  unfold range_order. intros Hp.
  assert (Hl : map_to_list (NextTokenOccurrences link_x1_y3) = [("y", 3); ("x", 1)])
    by (vm_compute; reflexivity).
  rewrite Hl in Hp. symmetry in Hp.
  apply Permutation_length_2_inv in Hp as [-> | ->]; split; vm_compute; discriminate.
Qed.

(** ** The round trip on [a, b, a, b] *)

(** C5. Building from the single stream [a, b, a, b] gives exactly the
    links "" -> {a:1}, a -> {b:2}, b -> {a:1, "":1}, with totals 1, 2 and
    2, and no link for any other token. On each link the probability lookup
    of a recorded next token is count/total with present = true (1/1, 2/2,
    1/2 and 1/2), and the lookup of any other next token is (0.0, false). *)
Theorem buildChain_abab :
  let c := buildChain ["a"; "b"; "a"; "b"] in
  let l0 := mkLink "" {[ "a" := 1 ]} 1 in
  let la := mkLink "a" {[ "b" := 2 ]} 2 in
  let lb := mkLink "b" {[ "a" := 1; "" := 1 ]} 2 in
  c = {[ "" := l0; "a" := la; "b" := lb ]}
  ∧ (∀ token, RetrieveMarkovLink c token =
       if decide (token = "") then (Some l0, true)
       else if decide (token = "a") then (Some la, true)
       else if decide (token = "b") then (Some lb, true)
       else (None, false))
  ∧ (∀ next, GetProbabilityOfToken l0 next =
       if decide (next = "a")
       then (PrimFloat.div (GoInt.to_float64 1) (GoInt.to_float64 1), true)
       else (0%float, false))
  ∧ (∀ next, GetProbabilityOfToken la next =
       if decide (next = "b")
       then (PrimFloat.div (GoInt.to_float64 2) (GoInt.to_float64 2), true)
       else (0%float, false))
  ∧ (∀ next, GetProbabilityOfToken lb next =
       if decide (next = "a" ∨ next = "")
       then (PrimFloat.div (GoInt.to_float64 1) (GoInt.to_float64 2), true)
       else (0%float, false))
  ∧ PrimFloat.div (GoInt.to_float64 1) (GoInt.to_float64 1) = 1%float
  ∧ PrimFloat.div (GoInt.to_float64 2) (GoInt.to_float64 2) = 1%float
  ∧ PrimFloat.div (GoInt.to_float64 1) (GoInt.to_float64 2) = 0.5%float.
Proof.
  intros c l0 la lb.
  assert (Hc : c = {[ "" := l0; "a" := la; "b" := lb ]}) by (vm_compute; reflexivity).
  split; [exact Hc|]. split; [|split; [|split; [|split]]].
  - intros token. unfold RetrieveMarkovLink. rewrite Hc.
    repeat case_decide; simplify_map_eq; done.
  - intros next. unfold GetProbabilityOfToken, l0. simpl.
    case_decide; simplify_map_eq; done.
  - intros next. unfold GetProbabilityOfToken, la. simpl.
    case_decide; simplify_map_eq; done.
  - intros next. unfold GetProbabilityOfToken, lb. simpl.
    case_decide as Hn.
    + destruct Hn as [-> | ->]; vm_compute; reflexivity.
    + rewrite lookup_insert_ne, lookup_singleton_ne by naive_solver. done.
  - repeat split; vm_compute; reflexivity.
Qed.

(** ** Merging: order independence *)

Lemma foldl_comm_perm {A B} (f : B → A → B) (l1 l2 : list A) :
  (∀ b x y, f (f b x) y = f (f b y) x) →
  l1 ≡ₚ l2 → ∀ b, foldl f b l1 = foldl f b l2.
Proof.
  intros Hf. induction 1 as [|x l l' _ IH|x y l|l l' l'' _ IH1 _ IH2]; intros b; simpl.
  - done.
  - apply IH.
  - by rewrite Hf.
  - by rewrite IH1.
Qed.

Lemma addOccurrences_step_comm (m : gmap string Z) (x y : string * Z) :
  addOccurrences (addOccurrences m [x]) [y] = addOccurrences (addOccurrences m [y]) [x].
Proof.
  destruct x as [k1 v1], y as [k2 v2]. simpl. unfold occ_get.
  destruct (decide (k1 = k2)) as [->|Hne].
  - rewrite !lookup_insert_eq, !insert_insert_eq. simpl. by rewrite add_swap.
  - rewrite !lookup_insert_ne by done. by apply insert_insert_ne.
Qed.

Lemma addOccurrences_perm (m : gmap string Z) (e1 e2 : list (string * Z)) :
  e1 ≡ₚ e2 → addOccurrences m e1 = addOccurrences m e2.
Proof.
  intros Hp. unfold addOccurrences. apply foldl_comm_perm; [|done].
  intros b x y. apply (addOccurrences_step_comm b x y).
Qed.

Lemma addOccurrences_app (m : gmap string Z) (e1 e2 : list (string * Z)) :
  addOccurrences m (e1 ++ e2) = addOccurrences (addOccurrences m e1) e2.
Proof. unfold addOccurrences. apply foldl_app. Qed.

Lemma mergeLink_comm (d : singleKeyChain) (x y : singleTokenLink * list (string * Z)) :
  mergeLink (mergeLink d x) y = mergeLink (mergeLink d y) x.
Proof.
  destruct x as [l1 e1], y as [l2 e2]. unfold mergeLink.
  destruct (decide (Token l1 = Token l2)) as [Heq|Hne].
  - rewrite Heq, !lookup_insert_eq, !insert_insert_eq. simpl. f_equal.
    f_equal.
    + rewrite <- !addOccurrences_app. apply addOccurrences_perm, Permutation_app_comm.
    + apply add_swap.
  - rewrite !lookup_insert_ne by done. by apply insert_insert_ne.
Qed.

Lemma mergeChains_visiting_concat visits :
  mergeChains_visiting visits = foldl mergeLink ∅ (concat visits).
Proof.
  unfold mergeChains_visiting. generalize (∅ : singleKeyChain).
  induction visits as [|v vs IH]; intros d; simpl; [done|].
  by rewrite foldl_app, IH.
Qed.

Lemma foldl_mergeLink_perm (v1 v2 : list (singleTokenLink * list (string * Z))) :
  v1 ≡ₚ v2 → ∀ d, foldl mergeLink d v1 = foldl mergeLink d v2.
Proof. apply foldl_comm_perm, mergeLink_comm. Qed.

Lemma mergeLink_entries_perm d l e1 e2 :
  e1 ≡ₚ e2 → mergeLink d (l, e1) = mergeLink d (l, e2).
Proof. intros Hp. unfold mergeLink. by rewrite (addOccurrences_perm _ e1 e2). Qed.

(** Whatever way the two ranges go through a chain, merging it into a table
    gives what the canonical visit gives. *)
Lemma mergeLink_any_visit chain visit d :
  visit_of chain visit →
  foldl mergeLink d visit = foldl mergeLink d (canonical_visit chain).
Proof.
  intros [Hp Hall]. unfold canonical_visit.
  rewrite <- (foldl_mergeLink_perm _ _ (fmap_Permutation _ _ _ Hp)).
  clear Hp. revert d.
  induction Hall as [|[l e] v Hle _ IH]; intros d; [done|].
  simpl. rewrite <- IH. f_equal. by apply mergeLink_entries_perm.
Qed.

Lemma mergeChains_any_order chains visits :
  Forall2 visit_of chains visits →
  mergeChains_visiting visits = mergeChains chains.
Proof.
  intros Hall. unfold mergeChains, mergeChains_visiting.
  generalize (∅ : singleKeyChain).
  induction Hall as [|c v cs vs Hv _ IH]; intros d; [done|].
  simpl. rewrite (mergeLink_any_visit c v d Hv). apply IH.
Qed.

Lemma canonical_visit_of chain : visit_of chain (canonical_visit chain).
Proof.
  unfold visit_of, canonical_visit. split.
  - rewrite <- list_fmap_compose. simpl.
    by rewrite list_fmap_id.
  - apply Forall_fmap, Forall_forall. intros l _. simpl. by unfold range_order.
Qed.

Lemma mergeChains_perm chains chains' :
  chains ≡ₚ chains' → mergeChains chains = mergeChains chains'.
Proof.
  intros Hp. unfold mergeChains, mergeChains_visiting.
  apply foldl_comm_perm; [|by apply fmap_Permutation].
  intros d v1 v2. rewrite <- !foldl_app.
  apply foldl_mergeLink_perm, Permutation_app_comm.
Qed.

Lemma mergeChains_app xs ys :
  mergeChains (xs ++ ys)
  = foldl (λ d visit, foldl mergeLink d visit) (mergeChains xs) (canonical_visit <$> ys).
Proof. unfold mergeChains, mergeChains_visiting. by rewrite fmap_app, foldl_app. Qed.

(** ** Count tables *)

Lemma addOccurrences_in_range (entries : list (string * Z)) : ∀ m : gmap string Z,
  (∀ k v, m !! k = Some v → GoInt.in_range v) →
  ∀ k v, addOccurrences m entries !! k = Some v → GoInt.in_range v.
Proof.
  induction entries as [|[k0 v0] rest IH]; intros m Hm; [done|].
  simpl. apply IH. intros k v.
  destruct (decide (k0 = k)) as [->|Hne].
  - rewrite lookup_insert_eq. intros [= <-]. apply add_in_range.
  - rewrite lookup_insert_ne by done. apply Hm.
Qed.

Lemma count_table_empty : count_table ∅.
Proof. intros key l Hl. by rewrite lookup_empty in Hl. Qed.

Lemma count_table_mergeLink d x : count_table d → count_table (mergeLink d x).
Proof.
  intros Hd. destruct x as [l e]. unfold mergeLink. intros key l'.
  destruct (decide (Token l = key)) as [<-|Hne].
  - rewrite lookup_insert_eq. intros [= <-]. simpl.
    destruct (d !! Token l) as [ext|] eqn:Hext; simpl.
    + destruct (Hd _ _ Hext) as (Hk & _ & Ho). split; [done|].
      split; [apply add_in_range|]. by apply addOccurrences_in_range.
    + split; [done|]. split; [apply add_in_range|].
      apply addOccurrences_in_range. intros k v Hkv. by rewrite lookup_empty in Hkv.
  - rewrite lookup_insert_ne by done. apply Hd.
Qed.

Lemma count_table_foldl_mergeLink visit : ∀ d,
  count_table d → count_table (foldl mergeLink d visit).
Proof.
  induction visit as [|x v IH]; intros d Hd; [done|].
  simpl. by apply IH, count_table_mergeLink.
Qed.

Lemma count_table_mergeChains chains : count_table (mergeChains chains).
Proof.
  rewrite <- (mergeChains_any_order chains (canonical_visit <$> chains)).
  - rewrite mergeChains_visiting_concat.
    apply count_table_foldl_mergeLink, count_table_empty.
  - induction chains as [|c cs IH]; constructor; [apply canonical_visit_of | done].
Qed.

Lemma count_table_appendToChain c prev next :
  count_table c → count_table (appendToChain c prev next).
Proof.
  intros Hc. unfold appendToChain. intros key l'.
  destruct (decide (prev = key)) as [<-|Hne].
  - rewrite lookup_insert_eq. intros [= <-]. simpl.
    assert (Hins : ∀ o : gmap string Z,
      (∀ k v, o !! k = Some v → GoInt.in_range v) →
      ∀ k v, <[next := GoInt.add (occ_get o next) 1]> o !! k = Some v → GoInt.in_range v).
    { intros o Ho k v. destruct (decide (next = k)) as [->|Hnk].
      - rewrite lookup_insert_eq. intros [= <-]. apply add_in_range.
      - rewrite lookup_insert_ne by done. apply Ho. }
    destruct (c !! prev) as [ext|] eqn:Hext; simpl.
    + destruct (Hc _ _ Hext) as (Hk & _ & Ho). split; [done|].
      split; [apply add_in_range|]. by apply Hins.
    + split; [done|]. split; [apply add_in_range|].
      apply Hins. intros k v Hkv. by rewrite lookup_empty in Hkv.
  - rewrite lookup_insert_ne by done. apply Hc.
Qed.

Lemma count_table_buildChain_loop tokens : ∀ c lastVal,
  count_table c → count_table (buildChain_loop c lastVal tokens).1.
Proof.
  induction tokens as [|t ts IH]; intros c lastVal Hc; [done|].
  simpl. by apply IH, count_table_appendToChain.
Qed.

Lemma count_table_buildChain tokens : count_table (buildChain tokens).
Proof.
  unfold buildChain.
  pose proof (count_table_buildChain_loop tokens ∅ "" count_table_empty) as H.
  destruct (buildChain_loop ∅ "" tokens) as [links lastVal].
  by apply count_table_appendToChain.
Qed.

(** ** Merging: identity *)

Lemma addOccurrences_empty_id (o : gmap string Z) :
  (∀ k v, o !! k = Some v → GoInt.in_range v) →
  addOccurrences ∅ (map_to_list o) = o.
Proof.
  induction o as [|i x m Hi IH] using map_ind; intros Ho.
  - by rewrite map_to_list_empty.
  - rewrite (addOccurrences_perm _ _ (map_to_list m ++ [(i, x)])).
    2:{ rewrite map_to_list_insert by done. apply Permutation_cons_append. }
    rewrite addOccurrences_app, IH.
    + simpl. unfold occ_get. rewrite Hi. simpl. rewrite add_0_l; [done|].
      apply (Ho i). by rewrite lookup_insert_eq.
    + intros k v Hk. apply (Ho k). rewrite lookup_insert_ne; [done|]. congruence.
Qed.

Lemma canonical_visit_insert (m : singleKeyChain) i x :
  m !! i = None →
  canonical_visit (<[i := x]> m)
    ≡ₚ canonical_visit m ++ [(x, map_to_list (NextTokenOccurrences x))].
Proof.
  intros Hi. unfold canonical_visit.
  rewrite map_to_list_insert by done. simpl. apply Permutation_cons_append.
Qed.

(** Merging a count table into the empty table gives the table back. *)
Lemma mergeLink_canonical_id (T : singleKeyChain) :
  count_table T → foldl mergeLink ∅ (canonical_visit T) = T.
Proof.
  induction T as [|i x m Hi IH] using map_ind; intros HT.
  - unfold canonical_visit. by rewrite map_to_list_empty.
  - rewrite (foldl_mergeLink_perm _ _ (canonical_visit_insert m i x Hi)).
    rewrite foldl_app, IH.
    + destruct (HT i x) as (Hk & Hr & Ho); [by rewrite lookup_insert_eq|].
      simpl. rewrite Hk, Hi. simpl.
      rewrite addOccurrences_empty_id, add_0_l by done.
      destruct x as [tok occ tot]. simpl in *. by subst.
    + intros key l Hl. apply HT. rewrite lookup_insert_ne; [done|]. congruence.
Qed.

Lemma canonical_visit_empty : canonical_visit ∅ = [].
Proof. unfold canonical_visit. by rewrite map_to_list_empty. Qed.

(** ** C3 and C4 *)

(** C3. Merging is commutative and associative. Whatever order the chains
    are given in, and whatever order the ranges visit the links of each
    chain and the occurrences of each link, the merged chain is the same:
    the same links with the same occurrence counts and totals. And merging
    in groups (first some of the chains, then the result with the others)
    gives the chain that merging all of them at once gives. *)
Theorem mergeChains_comm_assoc :
  (∀ chains chains' visits visits',
     chains ≡ₚ chains' →
     Forall2 visit_of chains visits →
     Forall2 visit_of chains' visits' →
     mergeChains_visiting visits = mergeChains_visiting visits')
  ∧ (∀ xs ys, mergeChains (mergeChains xs :: ys) = mergeChains (xs ++ ys))
  ∧ (∀ xs ys, mergeChains (xs ++ [mergeChains ys]) = mergeChains (xs ++ ys)).
Proof.
  assert (Hgroup : ∀ xs ys, mergeChains (mergeChains xs :: ys) = mergeChains (xs ++ ys)).
  { intros xs ys. rewrite mergeChains_app.
    unfold mergeChains at 1. unfold mergeChains_visiting. simpl.
    rewrite mergeLink_canonical_id; [done|]. apply count_table_mergeChains. }
  split; [|split; [done|]].
  - intros chains chains' visits visits' Hp Hv Hv'.
    rewrite (mergeChains_any_order _ _ Hv), (mergeChains_any_order _ _ Hv').
    by apply mergeChains_perm.
  - intros xs ys.
    rewrite (mergeChains_perm (xs ++ [mergeChains ys]) (mergeChains ys :: xs))
      by (symmetry; apply Permutation_cons_append).
    rewrite Hgroup. apply mergeChains_perm, Permutation_app_comm.
Qed.

Lemma mergeChains_comm_assoc_witness :
  mergeChains_visiting [canonical_visit (buildChain ["a"; "b"]);
                        canonical_visit (buildChain ["b"; "a"; "b"])]
  = mergeChains_visiting [canonical_visit (buildChain ["b"; "a"; "b"]);
                          canonical_visit (buildChain ["a"; "b"])].
Proof.
  apply (proj1 mergeChains_comm_assoc
           [buildChain ["a"; "b"]; buildChain ["b"; "a"; "b"]]
           [buildChain ["b"; "a"; "b"]; buildChain ["a"; "b"]]).
  - apply perm_swap.
  - repeat constructor; apply canonical_visit_of.
  - repeat constructor; apply canonical_visit_of.
Defined.

(** C4. Merging with an empty table is the identity: for a count table T
    (each link stored under its own source token, as the accumulator builds
    them), merging T with the table that has no links, on either side,
    gives a chain equal to T, so with the same source tokens, occurrence
    counts and totals. *)
Theorem mergeChains_empty_identity (T : singleKeyChain)
    (visit : list (singleTokenLink * list (string * Z))) :
  count_table T →
  visit_of T visit →
  mergeChains_visiting [visit; []] = T ∧ mergeChains_visiting [[]; visit] = T
  ∧ mergeChains [T; ∅] = T ∧ mergeChains [∅; T] = T.
Proof.
  intros HT Hv.
  assert (H1 : mergeChains [T; ∅] = T).
  { unfold mergeChains, mergeChains_visiting. simpl.
    rewrite canonical_visit_empty. simpl. by rewrite mergeLink_canonical_id. }
  assert (H2 : mergeChains [∅; T] = T).
  { unfold mergeChains, mergeChains_visiting. simpl.
    rewrite canonical_visit_empty. simpl. by rewrite mergeLink_canonical_id. }
  assert (Hnil : visit_of ∅ []).
  { rewrite <- canonical_visit_empty. apply canonical_visit_of. }
  split; [|split; [|done]].
  - etrans; [|exact H1]. apply mergeChains_any_order.
    constructor; [done|]. constructor; [done|]. constructor.
  - etrans; [|exact H2]. apply mergeChains_any_order.
    constructor; [done|]. constructor; [done|]. constructor.
Qed.

Lemma mergeChains_empty_identity_witness :
  let T := buildChain ["a"; "b"; "a"; "b"] in
  mergeChains_visiting [canonical_visit T; []] = T
  ∧ mergeChains_visiting [[]; canonical_visit T] = T
  ∧ mergeChains [T; ∅] = T ∧ mergeChains [∅; T] = T.
Proof.
  intros T. apply (mergeChains_empty_identity T (canonical_visit T)).
  - apply count_table_buildChain.
  - apply canonical_visit_of.
Defined.

(** ** The invariant of links *)

Lemma sum_occurrences_map_sum (m : gmap string Z) : sum_occurrences m = map_sum id m.
Proof. unfold sum_occurrences, map_sum. by rewrite list_fmap_id. Qed.

Lemma map_sum_empty {A} (f : A → Z) : map_sum f ∅ = 0.
Proof. unfold map_sum. by rewrite map_to_list_empty. Qed.

Lemma map_sum_insert_None {A} (f : A → Z) (m : gmap string A) k x :
  m !! k = None → map_sum f (<[k := x]> m) = f x + map_sum f m.
Proof.
  intros Hk. unfold map_sum.
  apply (sumZ_perm _ (f x :: (f <$> (map_to_list m).*2))).
  by rewrite map_to_list_insert.
Qed.

Lemma map_sum_delete {A} (f : A → Z) (m : gmap string A) k :
  map_sum f m = from_option f 0 (m !! k) + map_sum f (delete k m).
Proof.
  destruct (m !! k) as [x|] eqn:Hk; simpl.
  - rewrite <- (insert_delete_id m k x) at 1 by done.
    apply map_sum_insert_None, lookup_delete_eq.
  - by rewrite delete_id.
Qed.

Lemma map_sum_insert {A} (f : A → Z) (m : gmap string A) k x :
  map_sum f (<[k := x]> m) = map_sum f m - from_option f 0 (m !! k) + f x.
Proof.
  rewrite (map_sum_delete f m k), <- insert_delete_eq.
  rewrite map_sum_insert_None by apply lookup_delete_eq. lia.
Qed.

Lemma map_sum_nonneg {A} (f : A → Z) (m : gmap string A) :
  (∀ k x, m !! k = Some x → 0 ≤ f x) → 0 ≤ map_sum f m.
Proof.
  induction m as [|i x m Hi IH] using map_ind; intros Hm.
  - by rewrite map_sum_empty.
  - rewrite map_sum_insert_None by done.
    pose proof (Hm i x (lookup_insert_eq _ _ _)).
    assert (0 ≤ map_sum f m); [|lia].
    apply IH. intros k y Hk. apply (Hm k). rewrite lookup_insert_ne; [done|congruence].
Qed.

Lemma map_sum_lookup_le {A} (f : A → Z) (m : gmap string A) k :
  (∀ k x, m !! k = Some x → 0 ≤ f x) →
  0 ≤ from_option f 0 (m !! k) ≤ map_sum f m.
Proof.
  intros Hm. rewrite (map_sum_delete f m k).
  assert (0 ≤ map_sum f (delete k m)).
  { apply map_sum_nonneg. intros k' x. rewrite lookup_delete_Some. intros [_ ?]. eauto. }
  assert (0 ≤ from_option f 0 (m !! k)); [|lia].
  destruct (m !! k) eqn:Hk; simpl; [eauto | lia].
Qed.

Lemma occ_get_bounds (m : gmap string Z) k :
  (∀ k v, m !! k = Some v → 0 < v) → 0 ≤ occ_get m k ≤ sum_occurrences m.
Proof.
  intros Hm. rewrite sum_occurrences_map_sum.
  pose proof (map_sum_lookup_le id m k) as H. unfold occ_get.
  destruct (m !! k) eqn:Hk; simpl in *; apply H; intros k' x Hx;
    apply Hm in Hx; unfold id; lia.
Qed.

Lemma sum_occurrences_insert (m : gmap string Z) k v :
  sum_occurrences (<[k := v]> m) = sum_occurrences m - occ_get m k + v.
Proof.
  rewrite !sum_occurrences_map_sum, map_sum_insert. unfold occ_get.
  by destruct (m !! k).
Qed.

Lemma link_invariant_newLink key : link_invariant (newLink key).
Proof.
  split; simpl.
  - unfold sum_occurrences. by rewrite map_to_list_empty.
  - intros k v Hk. by rewrite lookup_empty in Hk.
Qed.

Lemma link_invariant_total_nonneg l : link_invariant l → 0 ≤ Total l.
Proof.
  intros [-> Hpos]. rewrite sum_occurrences_map_sum. apply map_sum_nonneg.
  intros k x Hx. apply Hpos in Hx. unfold id. lia.
Qed.

(** One more occurrence of [next], while the counts fit an [int]. *)
Lemma occurrences_incr (o : gmap string Z) next :
  (∀ k v, o !! k = Some v → 0 < v) →
  sum_occurrences o + 1 ≤ GoInt.maxInt →
  let o' := <[next := GoInt.add (occ_get o next) 1]> o in
  sum_occurrences o' = sum_occurrences o + 1 ∧ ∀ k v, o' !! k = Some v → 0 < v.
Proof.
  intros Hpos Hfit o'. pose proof (occ_get_bounds o next Hpos) as Hb.
  assert (Hadd : GoInt.add (occ_get o next) 1 = occ_get o next + 1).
  { apply add_exact. unfold GoInt.in_range, GoInt.minInt, GoInt.maxInt in *. lia. }
  subst o'. rewrite Hadd. split.
  - rewrite sum_occurrences_insert. lia.
  - intros k v. destruct (decide (next = k)) as [->|Hne].
    + rewrite lookup_insert_eq. intros [= <-]. lia.
    + rewrite lookup_insert_ne by done. apply Hpos.
Qed.

Lemma chain_total_le_weight (c : singleKeyChain) key :
  chain_invariant c → 0 ≤ from_option Total 0 (c !! key) ≤ chain_weight c.
Proof.
  intros Hc. apply map_sum_lookup_le. intros k l Hl.
  by apply link_invariant_total_nonneg, (Hc k).
Qed.

Lemma appendToChain_invariant c prev next :
  chain_invariant c →
  chain_weight c + 1 ≤ GoInt.maxInt →
  chain_invariant (appendToChain c prev next)
  ∧ chain_weight (appendToChain c prev next) = chain_weight c + 1.
Proof.
  intros Hc Hfit. pose proof (chain_total_le_weight c prev Hc) as Hb.
  unfold appendToChain.
  set (b := match c !! prev with None => newLink prev | Some e => e end).
  assert (Hbinv : link_invariant b).
  { subst b. destruct (c !! prev) eqn:E; [by apply (Hc prev) | apply link_invariant_newLink]. }
  assert (Hbtot : Total b = from_option Total 0 (c !! prev)).
  { subst b. by destruct (c !! prev). }
  destruct Hbinv as [Hsum Hpos].
  destruct (occurrences_incr (NextTokenOccurrences b) next Hpos) as [Hs' Hpos']; [lia|].
  assert (Hadd : GoInt.add (Total b) 1 = Total b + 1).
  { apply add_exact. unfold GoInt.in_range, GoInt.minInt, GoInt.maxInt in *. lia. }
  rewrite Hadd. split.
  - intros key l. destruct (decide (prev = key)) as [<-|Hne].
    + rewrite lookup_insert_eq. intros [= <-]. split; simpl; [lia | done].
    + rewrite lookup_insert_ne by done. apply Hc.
  - unfold chain_weight. rewrite map_sum_insert. simpl.
    fold (chain_weight c). lia.
Qed.

Lemma buildChain_loop_invariant tokens : ∀ c lastVal,
  chain_invariant c →
  chain_weight c + Z.of_nat (length tokens) ≤ GoInt.maxInt →
  chain_invariant (buildChain_loop c lastVal tokens).1
  ∧ chain_weight (buildChain_loop c lastVal tokens).1
    = chain_weight c + Z.of_nat (length tokens).
Proof.
  induction tokens as [|t ts IH]; intros c lastVal Hc Hfit; simpl in *.
  - split; [done | lia].
  - destruct (appendToChain_invariant c lastVal t Hc) as [Hc' Hw']; [lia|].
    destruct (IH (appendToChain c lastVal t) t Hc') as [Hc'' Hw'']; [lia|].
    split; [done | lia].
Qed.

Lemma chain_invariant_empty : chain_invariant ∅.
Proof. intros key l Hl. by rewrite lookup_empty in Hl. Qed.

Lemma buildChain_invariant tokens :
  transitions tokens ≤ GoInt.maxInt →
  chain_invariant (buildChain tokens)
  ∧ chain_weight (buildChain tokens) = transitions tokens.
Proof.
  unfold transitions, buildChain. intros Hfit.
  destruct (buildChain_loop_invariant tokens ∅ "" chain_invariant_empty) as [Hc Hw].
  { unfold chain_weight. rewrite map_sum_empty. lia. }
  destruct (buildChain_loop ∅ "" tokens) as [links lastVal]. simpl in *.
  unfold chain_weight in Hw at 2. rewrite map_sum_empty in Hw.
  destruct (appendToChain_invariant links lastVal "" Hc) as [Hc' Hw']; [lia|].
  split; [done | lia].
Qed.

Lemma addOccurrences_exact (entries : list (string * Z)) : ∀ m : gmap string Z,
  (∀ k v, m !! k = Some v → 0 < v) →
  Forall (λ kv, 0 < kv.2) entries →
  sum_occurrences m + sumZ entries.*2 ≤ GoInt.maxInt →
  sum_occurrences (addOccurrences m entries) = sum_occurrences m + sumZ entries.*2
  ∧ ∀ k v, addOccurrences m entries !! k = Some v → 0 < v.
Proof.
  induction entries as [|[k0 v0] rest IH]; intros m Hpos Hall Hfit; csimpl in *.
  - split; [lia | done].
  - apply Forall_cons in Hall as [Hv0 Hrest]. simpl in Hv0.
    assert (0 ≤ sumZ rest.*2).
    { clear -Hrest. induction Hrest as [|[k v] r Hv _ IH]; csimpl in *; lia. }
    pose proof (occ_get_bounds m k0 Hpos) as Hb.
    assert (Hadd : GoInt.add (occ_get m k0) v0 = occ_get m k0 + v0).
    { apply add_exact. unfold GoInt.in_range, GoInt.minInt, GoInt.maxInt in *. lia. }
    rewrite Hadd.
    assert (Hs : sum_occurrences (<[k0 := occ_get m k0 + v0]> m) = sum_occurrences m + v0).
    { rewrite sum_occurrences_insert. lia. }
    destruct (IH (<[k0 := occ_get m k0 + v0]> m)) as [Hs' Hpos']; [|done|lia|].
    + intros k v. destruct (decide (k0 = k)) as [->|Hne].
      * rewrite lookup_insert_eq. intros [= <-]. lia.
      * rewrite lookup_insert_ne by done. apply Hpos.
    + split; [lia | done].
Qed.

Lemma mergeLink_invariant d l entries :
  chain_invariant d →
  link_invariant l →
  range_order (NextTokenOccurrences l) entries →
  chain_weight d + Total l ≤ GoInt.maxInt →
  chain_invariant (mergeLink d (l, entries))
  ∧ chain_weight (mergeLink d (l, entries)) = chain_weight d + Total l.
Proof.
  intros Hd [Hsum Hpos] Hord Hfit.
  pose proof (chain_total_le_weight d (Token l) Hd) as Hb.
  pose proof (link_invariant_total_nonneg l (conj Hsum Hpos)) as Hl0.
  unfold mergeLink.
  set (b := match d !! Token l with None => newLink (Token l) | Some e => e end).
  assert (Hbinv : link_invariant b).
  { subst b. destruct (d !! Token l) eqn:E;
      [by apply (Hd (Token l)) | apply link_invariant_newLink]. }
  assert (Hbtot : Total b = from_option Total 0 (d !! Token l)).
  { subst b. by destruct (d !! Token l). }
  destruct Hbinv as [Hbsum Hbpos].
  assert (Hes : sumZ entries.*2 = Total l).
  { rewrite Hsum. apply sumZ_perm. by apply fmap_Permutation. }
  destruct (addOccurrences_exact entries (NextTokenOccurrences b) Hbpos) as [Hs' Hpos'].
  { apply Forall_forall. intros [k v] Hin. simpl. apply (Hpos k).
    apply elem_of_map_to_list. unfold range_order in Hord. by rewrite <- Hord. }
  { lia. }
  assert (Hadd : GoInt.add (Total b) (Total l) = Total b + Total l).
  { apply add_exact. unfold GoInt.in_range, GoInt.minInt, GoInt.maxInt in *. lia. }
  rewrite Hadd. split.
  - intros key l'. destruct (decide (Token l = key)) as [<-|Hne].
    + rewrite lookup_insert_eq. intros [= <-]. split; simpl; [lia | done].
    + rewrite lookup_insert_ne by done. apply Hd.
  - unfold chain_weight. rewrite map_sum_insert. simpl.
    fold (chain_weight d). lia.
Qed.

Lemma foldl_mergeLink_invariant visit : ∀ d,
  chain_invariant d →
  Forall (λ x, link_invariant x.1 ∧ range_order (NextTokenOccurrences x.1) x.2) visit →
  chain_weight d + sumZ ((λ x, Total x.1) <$> visit) ≤ GoInt.maxInt →
  chain_invariant (foldl mergeLink d visit)
  ∧ chain_weight (foldl mergeLink d visit)
    = chain_weight d + sumZ ((λ x, Total x.1) <$> visit).
Proof.
  induction visit as [|[l e] v IH]; intros d Hd Hall Hfit;
    rewrite ?fmap_cons, ?sumZ_cons in *; cbn [foldl fst] in *.
  - split; [done | simpl; lia].
  - apply Forall_cons in Hall as [[Hl He] Hv]. simpl in Hl, He.
    match type of Hfit with _ + (_ + ?s) ≤ _ => assert (0 ≤ s) end.
    { clear -Hv. induction Hv as [|x r [Hx _] _ IH]; csimpl; [lia|].
      apply link_invariant_total_nonneg in Hx. lia. }
    destruct (mergeLink_invariant d l e Hd Hl He) as [Hd' Hw']; [lia|].
    destruct (IH (mergeLink d (l, e)) Hd' Hv) as [Hd'' Hw'']; [lia|].
    split; [done | lia].
Qed.

Lemma canonical_visit_weight c :
  sumZ ((λ x, Total x.1) <$> canonical_visit c) = chain_weight c.
Proof.
  unfold canonical_visit, chain_weight, map_sum.
  by rewrite <- list_fmap_compose.
Qed.

(** Merging preserves the invariant of links while the merged number of
    observations fits an [int]. *)
Lemma mergeChains_invariant chains :
  Forall chain_invariant chains →
  sumZ (chain_weight <$> chains) ≤ GoInt.maxInt →
  chain_invariant (mergeChains chains).
Proof.
  intros Hall Hfit. unfold mergeChains. rewrite mergeChains_visiting_concat.
  apply foldl_mergeLink_invariant.
  - apply chain_invariant_empty.
  - apply Forall_concat, Forall_fmap.
    eapply Forall_impl; [exact Hall|]. intros c Hc. simpl.
    unfold canonical_visit. apply Forall_fmap, Forall_fmap, Forall_forall.
    intros [k l] Hin. simpl. split; [|by unfold range_order].
    apply (Hc k). by apply elem_of_map_to_list.
  - unfold chain_weight at 1. rewrite map_sum_empty, Z.add_0_l.
    assert (Heq : sumZ ((λ x, Total x.1) <$> concat (canonical_visit <$> chains))
                  = sumZ (chain_weight <$> chains)); [|lia].
    clear. induction chains as [|c cs IH]; csimpl; [done|].
    by rewrite fmap_app, sumZ_app, canonical_visit_weight, IH.
Qed.

(** C6. While the number of recorded transitions (one per token and one per
    stream for the end sentinel) fits Go's [int], every link of the chain
    that [buildChain] produces for a stream, and every link of the chain
    that [mergeChains] produces from these chains, in whatever order the
    ranges visit them, has a total equal to the sum of its occurrence
    counts and only positive occurrence counts. *)
Theorem buildChain_mergeChains_invariant (streams : list (list string)) :
  sumZ (transitions <$> streams) ≤ GoInt.maxInt →
  Forall (λ tokens, chain_invariant (buildChain tokens)) streams
  ∧ chain_invariant (mergeChains (buildChain <$> streams))
  ∧ ∀ visits, Forall2 visit_of (buildChain <$> streams) visits →
              chain_invariant (mergeChains_visiting visits).
Proof.
  intros Hfit.
  assert (Hpos : ∀ ss : list (list string), 0 ≤ sumZ (transitions <$> ss)).
  { induction ss as [|t ss IH]; csimpl; unfold transitions in *; lia. }
  assert (Hall : Forall (λ tokens, chain_invariant (buildChain tokens)
                         ∧ chain_weight (buildChain tokens) = transitions tokens) streams).
  { induction streams as [|t ss IH]; constructor; csimpl in *.
    - apply buildChain_invariant. specialize (Hpos ss). lia.
    - apply IH. unfold transitions in *. lia. }
  assert (Hm : chain_invariant (mergeChains (buildChain <$> streams))).
  { apply mergeChains_invariant.
    - apply Forall_fmap. eapply Forall_impl; [exact Hall|]. by intros t [? _].
    - assert (Heq : sumZ (chain_weight <$> (buildChain <$> streams))
                    = sumZ (transitions <$> streams)); [|lia].
      clear -Hall. induction Hall as [|t ss [_ Hw] _ IH]; csimpl; [done|].
      by rewrite Hw, IH. }
  split; [|split; [done|]].
  - eapply Forall_impl; [exact Hall|]. by intros t [? _].
  - intros visits Hv. by rewrite (mergeChains_any_order _ _ Hv).
Qed.

Lemma buildChain_mergeChains_invariant_witness :
  Forall (λ tokens, chain_invariant (buildChain tokens)) [["a"; "b"; "a"; "b"]; ["b"; "b"]]
  ∧ chain_invariant (mergeChains (buildChain <$> [["a"; "b"; "a"; "b"]; ["b"; "b"]]))
  ∧ ∀ visits, Forall2 visit_of (buildChain <$> [["a"; "b"; "a"; "b"]; ["b"; "b"]]) visits →
              chain_invariant (mergeChains_visiting visits).
Proof.
  apply (buildChain_mergeChains_invariant [["a"; "b"; "a"; "b"]; ["b"; "b"]]).
  vm_compute. discriminate.
Defined.

(** ** Token sources *)

Lemma filterLoop_mono next1 next2 filter queue index :
  (∀ s r, next1 s = Some r → next2 s = Some r) →
  ∀ k1 k2 src r, (k1 ≤ k2)%nat →
    filterLoop next1 filter queue index k1 src = Some r →
    filterLoop next2 filter queue index k2 src = Some r.
Proof.
  intros Hnext. induction k1 as [|k1 IH]; intros k2 src r Hle H; [done|].
  destruct k2 as [|k2]; [lia|]. cbn [filterLoop] in *.
  destruct (next1 src) as [[[c readErr] s']|] eqn:E; [|done].
  rewrite (Hnext _ _ E). destruct readErr; [done|].
  destruct (filter c) as [[|t [|t' ts]] [e|]]; try done.
  apply (IH k2); [lia | done].
Qed.

Lemma NextToken_mono n : ∀ m s r,
  (n ≤ m)%nat → NextToken n s = Some r → NextToken m s = Some r.
Proof.
  induction n as [|n IH]; intros m s r Hle H; [done|].
  destruct m as [|m]; [lia|]. destruct s as [script calls|sc|src f q i];
    cbn [NextToken] in *; [done..|].
  destruct (i <? length q)%nat; [done|].
  destruct (if (length q =? 0)%nat then (q, i) else ([], 0%nat)) as [q' i'].
  eapply filterLoop_mono; [|apply le_S_n, Hle|exact H].
  intros s r' Hs. apply (IH m); [lia | done].
Qed.

Lemma returns_deterministic s r1 s1 r2 s2 :
  returns s r1 s1 → returns s r2 s2 → r1 = r2 ∧ s1 = s2.
Proof.
  intros [n1 H1] [n2 H2].
  apply (NextToken_mono n1 (n1 `max` n2)) in H1; [|lia].
  apply (NextToken_mono n2 (n1 `max` n2)) in H2; [|lia].
  rewrite H1 in H2. by simplify_eq.
Qed.

Lemma drains_deterministic s ts1 e1 :
  drains s ts1 e1 → ∀ ts2 e2, drains s ts2 e2 → ts1 = ts2 ∧ e1 = e2.
Proof.
  induction 1 as [s t e s' Hr|s t s' ts e Hr _ IH]; intros ts2 e2 H2;
    destruct H2 as [s2 t2 e2 s2' Hr2|s2 t2 s2' ts2 e2 Hr2 Hd2];
    destruct (returns_deterministic _ _ _ _ _ Hr Hr2) as [Heq Hs]; simplify_eq.
  - done.
  - destruct (IH _ _ Hd2) as [-> ->]. done.
Qed.

Lemma drains_bufioScannerSource tokens : ∀ text failure,
  drains (bufioScannerSource (mkScanner tokens text failure)) tokens
         (scanner_end (mkScanner tokens text failure)).
Proof.
  induction tokens as [|t ts IH]; intros text failure.
  - destruct failure as [msg|].
    + by apply (drains_end _ "" _ (bufioScannerSource (mkScanner [] "" (Some msg)))); exists 1%nat.
    + by apply (drains_end _ "" _ (bufioScannerSource (mkScanner [] "" None))); exists 1%nat.
  - apply (drains_token _ _ (bufioScannerSource (mkScanner ts t failure))).
    + by exists 1%nat.
    + apply IH.
Qed.

Lemma pulls_filterLoop filter queue index src r s'' :
  pulls filter queue index src r s'' →
  ∃ N, ∀ M, (N ≤ M)%nat →
    filterLoop (NextToken M) filter queue index M src = Some (r, s'').
Proof.
  induction 1 as [src t e src' [n Hr]|src c src' tokens e [n Hr] Hf
                 |src c src' r s'' [n Hr] Hf _ [N IH]
                 |src c src' t [n Hr] Hf|src c src' t t' tokens [n Hr] Hf].
  1,2,4,5: exists (S n); intros M HM; destruct M as [|M]; [lia|];
    cbn [filterLoop]; rewrite (NextToken_mono n (S M) _ _ ltac:(lia) Hr);
    try rewrite Hf; try done; by destruct tokens as [|? [|]].
  exists (S (n `max` N)). intros M HM. destruct M as [|M]; [lia|].
  cbn [filterLoop]. rewrite (NextToken_mono n (S M) _ _ ltac:(lia) Hr), Hf.
  eapply filterLoop_mono; [|reflexivity|apply (IH M); lia].
  intros s r' Hs. apply (NextToken_mono M); [lia | done].
Qed.

Lemma returns_filtered_pulls src filter queue index r s'' :
  (length queue ≤ index)%nat →
  pulls filter (enter_loop queue index).1 (enter_loop queue index).2 src r s'' →
  returns (filteredSource src filter queue index) r s''.
Proof.
  intros Hle Hp. apply pulls_filterLoop in Hp as [N HN].
  exists (S N). cbn [NextToken].
  destruct (Nat.ltb_spec index (length queue)); [lia|].
  unfold enter_loop in HN.
  destruct (if (length queue =? 0)%nat then (queue, index) else ([], 0%nat)) as [q' i'].
  by apply HN.
Qed.

Lemma returns_filtered_queued src filter queue index t :
  queue !! index = Some t →
  returns (filteredSource src filter queue index) (t, None)
          (filteredSource src filter queue (S index)).
Proof.
  intros Hq. exists 1%nat. cbn [NextToken].
  pose proof (lookup_lt_Some _ _ _ Hq).
  destruct (Nat.ltb_spec index (length queue)); [|lia]. by rewrite Hq.
Qed.

Lemma enter_loop_exhausted queue index :
  (length queue ≤ index)%nat →
  (length (enter_loop queue index).1 ≤ (enter_loop queue index).2)%nat.
Proof.
  intros Hle. unfold enter_loop.
  destruct (Nat.eqb_spec (length queue) 0); simpl; lia.
Qed.

Lemma filterLoop_pulls filter queue index n k : ∀ src r s'',
  filterLoop (NextToken n) filter queue index k src = Some (r, s'') →
  pulls filter queue index src r s''.
Proof.
  induction k as [|k IH]; intros src r s'' H; [done|].
  cbn [filterLoop] in H.
  destruct (NextToken n src) as [[[c readErr] src']|] eqn:Hr; [|done].
  assert (Hret : returns src (c, readErr) src') by by exists n.
  destruct readErr as [e|].
  { simplify_eq. by eapply pulls_read_error. }
  destruct (filter c) as [tokens [e|]] eqn:Hf.
  { assert (r = ("", Some e) ∧ s'' = filteredSource src' filter queue index) as [-> ->]
      by (destruct tokens as [|? [|]]; by simplify_eq).
    by eapply pulls_filter_error. }
  destruct tokens as [|t [|t' tokens]]; simplify_eq.
  - eapply pulls_none; [done..|]. by apply IH.
  - by eapply pulls_one.
  - by eapply pulls_many.
Qed.

Lemma pulls_returns_filtered src filter queue index r s'' :
  (length queue ≤ index)%nat →
  returns (filteredSource src filter queue index) r s'' →
  pulls filter (enter_loop queue index).1 (enter_loop queue index).2 src r s''.
Proof.
  intros Hle [n H]. destruct n as [|n]; [done|]. cbn [NextToken] in H.
  destruct (Nat.ltb_spec index (length queue)); [lia|]. unfold enter_loop.
  destruct (if (length queue =? 0)%nat then (queue, index) else ([], 0%nat)) as [q' i'].
  by eapply filterLoop_pulls.
Qed.

Lemma enter_loop_idem queue index :
  enter_loop (enter_loop queue index).1 (enter_loop queue index).2
  = enter_loop queue index.
Proof.
  unfold enter_loop. destruct (Nat.eqb_spec (length queue) 0) as [H|H]; simpl.
  - by rewrite H.
  - done.
Qed.

Lemma drains_filtered_queue src filter rest e :
  (∀ queue index, (length queue ≤ index)%nat →
     drains (filteredSource src filter queue index) rest e) →
  ∀ queue index,
    drains (filteredSource src filter queue index) (drop index queue ++ rest) e.
Proof.
  intros H queue index.
  remember (length queue - index)%nat as k eqn:Hk. revert index Hk.
  induction k as [|k IH]; intros index Hk.
  - rewrite drop_ge by lia. apply H. lia.
  - destruct (lookup_lt_is_Some_2 queue index) as [t Ht]; [lia|].
    rewrite (drop_S _ _ _ Ht). simpl.
    eapply drains_token; [by apply returns_filtered_queued|].
    apply IH. lia.
Qed.

(** A filtered source delivers what [filtered_tokens] says, whatever is
    still queued first. *)
Lemma drains_filteredSource filter src tokens e :
  drains src tokens e →
  ∀ queue index,
    drains (filteredSource src filter queue index)
           (drop index queue ++ (filtered_tokens filter tokens e).1)
           (filtered_tokens filter tokens e).2.
Proof.
  induction 1 as [src t e src' Hr|src c src' tokens e Hr Hd IH];
    apply drains_filtered_queue; intros queue index Hle.
  - simpl. eapply drains_end. apply returns_filtered_pulls; [done|].
    by eapply pulls_read_error.
  - pose proof (enter_loop_exhausted queue index Hle) as Hle'.
    cbn [filtered_tokens].
    destruct (filter c) as [expansion [e'|]] eqn:Hf.
    { simpl. eapply drains_end. apply returns_filtered_pulls; [done|].
      by eapply pulls_filter_error. }
    destruct (filtered_tokens filter tokens e) as [out e'] eqn:Hout. simpl in *.
    destruct expansion as [|t [|t' expansion]].
    + specialize (IH (enter_loop queue index).1 (enter_loop queue index).2).
      rewrite drop_ge in IH by done. simpl in *.
      assert (Hskip : ∀ r s'',
        returns (filteredSource src' filter (enter_loop queue index).1
                   (enter_loop queue index).2) r s'' →
        returns (filteredSource src filter queue index) r s'').
      { intros r s'' Hret. apply returns_filtered_pulls; [done|].
        eapply pulls_none; [done..|].
        apply pulls_returns_filtered in Hret; [|done].
        by rewrite enter_loop_idem in Hret. }
      inversion IH; subst.
      * eapply drains_end. by apply Hskip.
      * eapply drains_token; [by apply Hskip | done].
    + eapply drains_token.
      * apply returns_filtered_pulls; [done|]. by eapply pulls_one.
      * specialize (IH (enter_loop queue index).1 (enter_loop queue index).2).
        by rewrite drop_ge in IH by done.
    + eapply drains_token.
      * apply returns_filtered_pulls; [done|]. by eapply pulls_many.
      * apply (IH (t :: t' :: expansion) 1%nat).
Qed.

Lemma drains_ApplyFiltersToSource filters : ∀ source tokens e,
  drains source tokens e →
  drains (ApplyFiltersToSource source filters)
         (foldl (λ te filter, filtered_tokens filter te.1 te.2) (tokens, e) filters).1
         (foldl (λ te filter, filtered_tokens filter te.1 te.2) (tokens, e) filters).2.
Proof.
  induction filters as [|f fs IH]; intros source tokens e Hd; [done|].
  simpl. destruct (filtered_tokens f tokens e) as [out e'] eqn:Hout.
  apply (IH _ out e').
  pose proof (drains_filteredSource f source tokens e Hd [] 0%nat) as H.
  by rewrite Hout in H.
Qed.

Lemma filtered_tokens_flat_map filter tokens e :
  Forall (λ c, (filter c).2 = None) tokens →
  filtered_tokens filter tokens e = (tokens ≫= (λ c, (filter c).1), e).
Proof.
  induction 1 as [|c rest Hc _ IH]; [done|].
  cbn [filtered_tokens]. rewrite bind_cons, IH.
  by destruct (filter c) as [expansion [e'|]].
Qed.

(** ** The orchestrator: every return is justified *)

Lemma buildChain_loop_snoc tokens : ∀ links0 lastVal0 val,
  buildChain_loop links0 lastVal0 (tokens ++ [val])
  = (appendToChain (buildChain_loop links0 lastVal0 tokens).1
                   (buildChain_loop links0 lastVal0 tokens).2 val, val).
Proof.
  induction tokens as [|t ts IH]; intros links0 lastVal0 val; [done|].
  simpl. apply IH.
Qed.

Section OrchestratorSound.

Context {P : Type} (pstep : P → action → P → Prop).

Lemma handed_over_insert_same (l : list (stream P)) i st st' :
  l !! i = Some st →
  built st' = built st →
  (built st = true → links st' = links st) →
  handed_over (<[i := st']> l) = handed_over l.
Proof.
  revert i. induction l as [|x l IH]; intros [|i] Hi Hb Hl; simplify_eq/=.
  - rewrite Hb. destruct (built st); [|done]. by rewrite Hl.
  - by rewrite (IH i).
Qed.

Lemma handed_over_insert_built (l : list (stream P)) i st st' :
  l !! i = Some st →
  built st = false →
  built st' = true →
  handed_over (<[i := st']> l) ≡ₚ handed_over l ++ [links st'].
Proof.
  revert i. induction l as [|x l IH]; intros [|i] Hi Hb Hb'; simplify_eq/=.
  - rewrite Hb, Hb'. apply Permutation_cons_append.
  - destruct (built x); simpl; by rewrite (IH i).
Qed.

Lemma handed_over_all (l : list (stream P)) :
  Forall (λ st, built st = true) l → handed_over l = links <$> l.
Proof. induction 1 as [|x l Hx _ IH]; [done|]. simpl. by rewrite Hx, IH. Qed.

Lemma Forall2_stream_ok_insert (producers : list P) (l : list (stream P)) i p0 st' :
  Forall2 (stream_ok pstep) producers l →
  producers !! i = Some p0 →
  stream_ok pstep p0 st' →
  Forall2 (stream_ok pstep) producers (<[i := st']> l).
Proof.
  intros Hall Hp Hok.
  rewrite <- (list_insert_id producers i p0 Hp). by apply Forall2_insert.
Qed.

Lemma build_invariant_initial (producers : list P) :
  build_invariant pstep producers (initial producers).
Proof.
  unfold build_invariant, initial. simpl. split.
  - apply Forall2_fmap_r, Forall_Forall2_diag, Forall_forall. intros p _.
    exists []. simpl. split; [constructor | done].
  - induction producers; [done|]. simpl. done.
Qed.

Lemma build_invariant_step (producers : list P) σ σ' :
  step pstep σ σ' →
  build_invariant pstep producers σ →
  build_invariant pstep producers σ'.
Proof.
  intros Hstep. unfold build_invariant.
  destruct Hstep as [σ i st p' Hi Hp|σ i st t p' Hi Hp Hc Hlen|σ i st p' Hi Hp Hc
                    |σ i st e p' Hi Hp Hret|σ i st val rest Hi Hb Hq
                    |σ i st Hi Hb Hq Hc|σ visits Hall Hret Hv]; simpl;
    destruct (returned σ) as [out|] eqn:Hout; try done;
    try (intros [Hok Hperm];
         destruct (Forall2_lookup_r _ _ _ _ _ Hok Hi) as (p0 & Hp0 & [consumed [Hruns Hb']])).
  - (* a step of the producer alone *)
    split.
    + eapply Forall2_stream_ok_insert; [done..|]. exists consumed. simpl.
      split; [by eapply runs_tau | done].
    + by rewrite (handed_over_insert_same _ _ st).
  - (* a token is sent *)
    split.
    + eapply Forall2_stream_ok_insert; [done..|]. exists consumed. simpl.
      rewrite Hc in Hruns. split; [rewrite app_assoc; by eapply runs_send|].
      destruct (built st); [|done]. destruct Hb' as (Hq & ? & _). congruence.
    + by rewrite (handed_over_insert_same _ _ st).
  - (* the channel is closed *)
    split.
    + eapply Forall2_stream_ok_insert; [done..|]. exists consumed. simpl.
      rewrite Hc in Hruns. split; [by eapply runs_close|].
      destruct (built st); [|done]. destruct Hb' as (? & ? & _). congruence.
    + by rewrite (handed_over_insert_same _ _ st).
  - (* an error is received by the caller *)
    exists i, p0. split; [done|]. by exists (consumed ++ tokChan st), (closed st), (producer st), p'.
  - (* buildChain receives a value *)
    rewrite Hb in Hb'. split.
    + eapply Forall2_stream_ok_insert; [done..|]. exists (consumed ++ [val]). simpl.
      rewrite Hq, cons_middle, app_assoc in Hruns. split; [done|].
      rewrite buildChain_loop_snoc, Hb'. reflexivity.
    + rewrite (handed_over_insert_same _ _ st); [done..|]. simpl. congruence.
  - (* buildChain hands its chain over *)
    rewrite Hb in Hb'. split.
    + eapply Forall2_stream_ok_insert; [done..|]. exists consumed. simpl.
      rewrite Hq, Hc in Hruns. split; [done|]. split; [done|]. split; [done|].
      unfold buildChain. by rewrite Hb'.
    + rewrite (handed_over_insert_built _ _ st) by done. simpl. by rewrite Hperm.
  - (* the merged chain is received by the caller *)
    intros [Hok Hperm].
    assert (Htss : ∃ tokenss, Forall2 (closes pstep) producers tokenss
                              ∧ links <$> streams σ = buildChain <$> tokenss).
    { clear -Hok Hall. induction Hok as [|p0 st ps sts [consumed [Hruns Hb]] _ IH].
      - by exists [].
      - apply Forall_cons in Hall as [Hbuilt Hall].
        destruct (IH Hall) as (tss & Hcl & Heq). rewrite Hbuilt in Hb.
        destruct Hb as (Hq & Hc & Hl). rewrite Hq, Hc, app_nil_r in Hruns.
        exists (consumed :: tss). split.
        + constructor; [by exists (producer st) | done].
        + rewrite !fmap_cons. by rewrite Hl, Heq. }
    destruct Htss as (tss & Hcl & Heq). exists tss. split; [done|].
    rewrite (mergeChains_any_order _ _ Hv), <- Heq, <- handed_over_all by done.
    by apply mergeChains_perm.
Qed.

Lemma build_invariant_reachable (producers : list P) σ :
  rtc (step pstep) (initial producers) σ → build_invariant pstep producers σ.
Proof.
  intros Hrtc.
  refine (rtc_ind_r (R := step pstep) (build_invariant pstep producers) _ _ _ σ Hrtc).
  - apply build_invariant_initial.
  - intros σ1 σ2 _ Hstep Hinv. by eapply build_invariant_step.
Qed.

(** Whatever the build returns is either the merge of the chains of streams
    that all sent their tokens and closed without an error, or the error
    at which one of the streams failed. *)
Lemma build_returns_sound (producers : list P) (out : Outcome) :
  build_returns pstep producers out →
  (∃ tokenss, Forall2 (closes pstep) producers tokenss
              ∧ out = (Some (mergeChains (buildChain <$> tokenss)), None))
  ∨ (∃ i p e, producers !! i = Some p ∧ fails pstep p e ∧ out = (None, Some e)).
Proof.
  intros (σ & Hrtc & Hret). apply build_invariant_reachable in Hrtc.
  unfold build_invariant in Hrtc. rewrite Hret in Hrtc.
  destruct out as [[c|] [e|]]; try done.
  - left. destruct Hrtc as (tss & Hcl & ->). by exists tss.
  - right. destruct Hrtc as (i & p & Hp & Hf). by exists i, p, e.
Qed.

End OrchestratorSound.

(** ** The orchestrator: the returns that can happen *)

Section OrchestratorRuns.

Context {P : Type} (pstep : P → action → P → Prop).

(** One stream brought forward alone: its producer sends, [buildChain]
    receives at once, so that the channel never holds more than one value. *)
Lemma run_producer p tokens b p' :
  runs pstep p tokens b p' →
  ∀ (σ : build_state P) i st,
    streams σ !! i = Some st →
    producer st = p → tokChan st = [] → closed st = false → built st = false →
    ∃ σ', rtc (step pstep) σ σ'
          ∧ streams σ' =
              <[i := mkStream p' [] b
                       (buildChain_loop (links st) (lastVal st) tokens).1
                       (buildChain_loop (links st) (lastVal st) tokens).2 false]>
                (streams σ)
          ∧ chainSlice σ' = chainSlice σ
          ∧ returned σ' = returned σ.
Proof.
  induction 1 as [p|p tokens b p' p'' _ IH Hp|p tokens p' t p'' _ IH Hp
                 |p tokens p' p'' _ IH Hp]; intros σ i st Hi Hprod Hq Hc Hb.
  - exists σ. split; [done|]. split; [|done]. simpl.
    symmetry. apply list_insert_id. rewrite Hi. f_equal.
    destruct st; simpl in *. by subst.
  - destruct (IH σ i st Hi Hprod Hq Hc Hb) as (σ1 & Hrtc & Hs & Hcs & Hr).
    pose proof (lookup_lt_Some _ _ _ Hi) as Hlt.
    assert (Hi1 : streams σ1 !! i = Some (mkStream p' [] b
               (buildChain_loop (links st) (lastVal st) tokens).1
               (buildChain_loop (links st) (lastVal st) tokens).2 false))
      by (rewrite Hs; by apply list_lookup_insert_eq).
    eexists. split.
    + eapply rtc_r; [exact Hrtc|]. exact (step_tau pstep σ1 i _ p'' Hi1 Hp).
    + simpl. by rewrite Hs, list_insert_insert_eq.
  - destruct (IH σ i st Hi Hprod Hq Hc Hb) as (σ1 & Hrtc & Hs & Hcs & Hr).
    pose proof (lookup_lt_Some _ _ _ Hi) as Hlt.
    assert (Hi1 : streams σ1 !! i = Some (mkStream p' [] false
               (buildChain_loop (links st) (lastVal st) tokens).1
               (buildChain_loop (links st) (lastVal st) tokens).2 false))
      by (rewrite Hs; by apply list_lookup_insert_eq).
    assert (Hcap : (length ([] : list string) < tokChan_capacity)%nat)
      by (unfold tokChan_capacity; simpl; lia).
    pose proof (step_send pstep σ1 i _ t p'' Hi1 Hp eq_refl Hcap) as Hsend.
    simpl in Hsend.
    match type of Hsend with step _ _ ?σ2 =>
      assert (Hi2 : streams σ2 !! i = Some (mkStream p'' [t] false
               (buildChain_loop (links st) (lastVal st) tokens).1
               (buildChain_loop (links st) (lastVal st) tokens).2 false))
        by (simpl; apply list_lookup_insert_eq; by rewrite Hs, length_insert);
      pose proof (step_receive pstep σ2 i _ t [] Hi2 eq_refl eq_refl) as Hrecv
    end.
    simpl in Hrecv.
    eexists. split.
    + eapply rtc_r; [eapply rtc_r; [exact Hrtc|exact Hsend]|exact Hrecv].
    + simpl. rewrite Hs, !list_insert_insert_eq, buildChain_loop_snoc. by rewrite Hcs, Hr.
  - destruct (IH σ i st Hi Hprod Hq Hc Hb) as (σ1 & Hrtc & Hs & Hcs & Hr).
    pose proof (lookup_lt_Some _ _ _ Hi) as Hlt.
    assert (Hi1 : streams σ1 !! i = Some (mkStream p' [] false
               (buildChain_loop (links st) (lastVal st) tokens).1
               (buildChain_loop (links st) (lastVal st) tokens).2 false))
      by (rewrite Hs; by apply list_lookup_insert_eq).
    eexists. split.
    + eapply rtc_r; [exact Hrtc|]. exact (step_close pstep σ1 i _ p'' Hi1 Hp eq_refl).
    + simpl. by rewrite Hs, list_insert_insert_eq.
Qed.

(** The streams brought to their end one after the other. *)
Lemma run_streams (producers : list P) tokenss :
  Forall2 (closes pstep) producers tokenss →
  ∀ (σ : build_state P) pre,
    streams σ = pre ++ (initial_stream <$> producers) →
    ∃ σ' post,
      rtc (step pstep) σ σ'
      ∧ streams σ' = pre ++ post
      ∧ Forall (λ st, built st = true) post
      ∧ chainSlice σ' = chainSlice σ ++ (buildChain <$> tokenss)
      ∧ returned σ' = returned σ.
Proof.
  induction 1 as [|p tokens ps tss [p' Hruns] _ IH]; intros σ pre Hs.
  - exists σ, []. simpl in *. rewrite !app_nil_r in *. by repeat split.
  - assert (Hi : streams σ !! length pre = Some (initial_stream p)).
    { rewrite Hs. apply list_lookup_middle. done. }
    destruct (run_producer _ _ _ _ Hruns σ (length pre) _ Hi)
      as (σ1 & Hrtc1 & Hs1 & Hcs1 & Hr1); [done..|].
    simpl in Hs1.
    set (resultingChain :=
           appendToChain (buildChain_loop ∅ "" tokens).1 (buildChain_loop ∅ "" tokens).2 "").
    set (st1 := mkStream p' [] true (buildChain_loop ∅ "" tokens).1
                         (buildChain_loop ∅ "" tokens).2 false) in *.
    assert (Hi1 : streams σ1 !! length pre = Some st1).
    { rewrite Hs1. apply list_lookup_insert_eq. by eapply lookup_lt_Some. }
    pose proof (step_finish pstep σ1 (length pre) st1 Hi1 eq_refl eq_refl eq_refl) as Hfin.
    simpl in Hfin. fold resultingChain in Hfin.
    set (done := mkStream p' [] true resultingChain (buildChain_loop ∅ "" tokens).2 true) in *.
    match type of Hfin with step _ _ ?σ2 =>
      destruct (IH σ2 (pre ++ [done])) as (σ' & post & Hrtc' & Hs' & Hb' & Hcs' & Hr')
    end.
    { simpl. rewrite Hs1, list_insert_insert_eq, Hs.
      replace (length pre) with (length pre + 0)%nat by lia.
      rewrite insert_app_r. simpl. by rewrite <- app_assoc. }
    exists σ', (done :: post). split; [|split; [|split; [|split]]].
    + eapply rtc_trans; [exact Hrtc1|]. eapply rtc_l; [exact Hfin|]. exact Hrtc'.
    + rewrite Hs'. by rewrite <- app_assoc.
    + by constructor.
    + rewrite Hcs'. simpl. rewrite Hcs1, <- app_assoc. simpl.
      unfold buildChain. by destruct (buildChain_loop ∅ "" tokens).
    + rewrite Hr'. simpl. done.
Qed.

(** When every stream sends its tokens and closes without an error, the
    build can return the merge of the streams' chains. *)
Lemma build_returns_chain (producers : list P) tokenss :
  Forall2 (closes pstep) producers tokenss →
  build_returns pstep producers (Some (mergeChains (buildChain <$> tokenss)), None).
Proof.
  intros Hcl.
  destruct (run_streams producers tokenss Hcl (initial producers) [])
    as (σ' & post & Hrtc & Hs & Hb & Hcs & Hr); [done|].
  simpl in *.
  eexists. split.
  - eapply rtc_r; [exact Hrtc|].
    apply (step_merge pstep σ' (canonical_visit <$> chainSlice σ')).
    + by rewrite Hs.
    + done.
    + clear. induction (chainSlice σ'); constructor; [apply canonical_visit_of | done].
  - simpl. by rewrite Hcs.
Qed.

(** When a stream comes to send an error, the build can return it. *)
Lemma build_returns_error (producers : list P) i p e :
  producers !! i = Some p →
  fails pstep p e →
  build_returns pstep producers (None, Some e).
Proof.
  intros Hp (tokens & b & p' & p'' & Hruns & Hstep).
  assert (Hi : streams (initial producers) !! i = Some (initial_stream p)).
  { simpl. by rewrite list_lookup_fmap, Hp. }
  destruct (run_producer _ _ _ _ Hruns (initial producers) i _ Hi)
    as (σ1 & Hrtc1 & Hs1 & Hcs1 & Hr1); [done..|].
  pose proof (lookup_lt_Some _ _ _ Hi) as Hlt.
  assert (∃ st1, streams σ1 !! i = Some st1 ∧ producer st1 = p') as (st1 & Hi1 & <-)
    by (eexists; split; [rewrite Hs1; by apply list_lookup_insert_eq | done]).
  eexists. split.
  - eapply rtc_r; [exact Hrtc1|]. exact (step_error pstep σ1 i _ e p'' Hi1 Hstep Hr1).
  - done.
Qed.

End OrchestratorRuns.

Section ProducerRuns.

Context {P : Type} (pstep : P → action → P → Prop).

Lemma runs_tau_l p p' tokens b p'' :
  pstep p ATau p' → runs pstep p' tokens b p'' → runs pstep p tokens b p''.
Proof.
  intros Hp. induction 1 as [p'|p' tokens b p1 p2 _ IH H2|p' tokens p1 t p2 _ IH H2
                            |p' tokens p1 p2 _ IH H2].
  - eapply runs_tau; [constructor | done].
  - eapply runs_tau; [by apply IH | done].
  - eapply runs_send; [by apply IH | done].
  - eapply runs_close; [by apply IH | done].
Qed.

Lemma runs_send_l p t p' tokens b p'' :
  pstep p (ASend t) p' → runs pstep p' tokens b p'' → runs pstep p (t :: tokens) b p''.
Proof.
  intros Hp. induction 1 as [p'|p' tokens b p1 p2 _ IH H2|p' tokens p1 t' p2 _ IH H2
                            |p' tokens p1 p2 _ IH H2].
  - apply (runs_send pstep p [] p t p'); [constructor | done].
  - eapply runs_tau; [by apply IH | done].
  - rewrite app_comm_cons. eapply runs_send; [by apply IH | done].
  - eapply runs_close; [by apply IH | done].
Qed.

End ProducerRuns.

(** ** The goroutine of a token source *)

Lemma delivers_cons s t s' tokens s2 :
  returns s (t, None) s' → delivers s' tokens s2 → delivers s (t :: tokens) s2.
Proof.
  intros Hr. induction 1 as [s'|s' tokens s1 t' s2 _ IH Hr'].
  - apply (delivers_snoc s [] s t s'); [constructor | done].
  - rewrite app_comm_cons. eapply delivers_snoc; [by apply IH | done].
Qed.

Lemma delivers_drains s tokens s1 :
  delivers s tokens s1 → ∀ tokens' e, drains s1 tokens' e → drains s (tokens ++ tokens') e.
Proof.
  induction 1 as [s|s tokens s1 t s2 _ IH Hr]; intros tokens' e Hd; [done|].
  rewrite <- app_assoc. apply IH. simpl. by eapply drains_token.
Qed.

Lemma drains_delivers s tokens e :
  drains s tokens e →
  ∃ s1 t s2, delivers s tokens s1 ∧ returns s1 (t, Some e) s2.
Proof.
  induction 1 as [s t e s' Hr|s t s' tokens e Hr _ (s1 & t' & s2 & Hd & Hr')].
  - exists s, t, s'. split; [constructor | done].
  - exists s1, t', s2. split; [by eapply delivers_cons | done].
Qed.

Lemma delivers_runs s tokens s1 :
  delivers s tokens s1 → runs source_step (s, Calling) tokens false (s1, Calling).
Proof.
  induction 1 as [s|s tokens s1 t s2 _ IH Hr]; [constructor|].
  eapply runs_send; [|apply source_send].
  eapply runs_tau; [exact IH|]. by apply source_token.
Qed.

Lemma source_runs_inv s0 tokens b p :
  runs source_step (s0, Calling) tokens b p →
  match p.2 with
  | Calling => b = false ∧ delivers s0 tokens p.1
  | Sending t => b = false ∧ ∃ s1, delivers s0 tokens s1 ∧ returns s1 (t, None) p.1
  | Failing e =>
      b = false ∧ e ≠ EOF ∧ ∃ s1 t, delivers s0 tokens s1 ∧ returns s1 (t, Some e) p.1
  | Exited => b = true ∧ ∃ s1 t, delivers s0 tokens s1 ∧ returns s1 (t, Some EOF) p.1
  end.
Proof.
  remember (s0, Calling) as p0 eqn:Hp0.
  induction 1 as [p|p tokens b p' p'' _ IH Hp|p tokens p' t p'' _ IH Hp
                 |p tokens p' p'' _ IH Hp]; subst p.
  - simpl. split; [done | constructor].
  - specialize (IH eq_refl). inversion Hp; subst; simpl in *.
    + destruct IH as [-> Hd]. split; [done|]. by exists s.
    + destruct IH as [-> Hd]. split; [done|]. split; [done|]. by exists s, t.
  - specialize (IH eq_refl). inversion Hp; subst; simpl in *.
    destruct IH as [_ (s1 & Hd & Hr)]. split; [done|]. by eapply delivers_snoc.
  - specialize (IH eq_refl). inversion Hp; subst; simpl in *.
    destruct IH as [_ Hd]. split; [done|]. by exists s, t.
Qed.

Lemma source_closes s tokens :
  closes source_step (s, Calling) tokens ↔ drains s tokens EOF.
Proof.
  split.
  - intros [[s' pc] Hruns]. apply source_runs_inv in Hruns. simpl in Hruns.
    destruct pc; try (by destruct Hruns).
    destruct Hruns as [_ (s1 & t & Hd & Hr)].
    rewrite <- (app_nil_r tokens). eapply delivers_drains; [done|]. by eapply drains_end.
  - intros Hd. apply drains_delivers in Hd as (s1 & t & s2 & Hd & Hr).
    exists (s2, Exited). eapply runs_close; [by apply delivers_runs|]. by eapply source_eof.
Qed.

Lemma source_fails s e :
  fails source_step (s, Calling) e ↔ e ≠ EOF ∧ ∃ tokens, drains s tokens e.
Proof.
  split.
  - intros (tokens & b & p' & p'' & Hruns & Hstep).
    apply source_runs_inv in Hruns. inversion Hstep; subst; simpl in *.
    destruct Hruns as (_ & Hne & s1 & t & Hd & Hr). split; [done|].
    exists tokens. rewrite <- (app_nil_r tokens).
    eapply delivers_drains; [done|]. by eapply drains_end.
  - intros [Hne [tokens Hd]]. apply drains_delivers in Hd as (s1 & t & s2 & Hd & Hr).
    exists tokens, false, (s2, Failing e), (s2, Calling). split; [|constructor].
    eapply runs_tau; [by apply delivers_runs|]. by eapply source_error.
Qed.

(** What [BuildChainFromSources] can return: the merge of the chains of the
    sources' tokens when every source ends with [io.EOF], or the error of a
    source that ends with another error. *)
Lemma BuildChainFromSources_returns tokenSources out :
  BuildChainFromSources tokenSources out ↔
    (∃ tokenss, Forall2 (λ s tokens, drains s tokens EOF) tokenSources tokenss
                ∧ out = (Some (mergeChains (buildChain <$> tokenss)), None))
    ∨ (∃ i s tokens e, tokenSources !! i = Some s ∧ drains s tokens e ∧ e ≠ EOF
                       ∧ out = (None, Some e)).
Proof.
  unfold BuildChainFromSources. split.
  - intros Hret. apply build_returns_sound in Hret as [(tss & Hcl & ->)|(i & p & e & Hp & Hf & ->)].
    + left. exists tss. split; [|done].
      rewrite Forall2_fmap_l in Hcl. eapply Forall2_impl; [exact Hcl|].
      intros s ts. apply source_closes.
    + right. apply list_lookup_fmap_Some in Hp as (s & -> & Hs).
      apply source_fails in Hf as [Hne [tokens Hd]]. by exists i, s, tokens, e.
  - intros [(tss & Hd & ->)|(i & s & tokens & e & Hs & Hd & Hne & ->)].
    + apply build_returns_chain. rewrite Forall2_fmap_l.
      eapply Forall2_impl; [exact Hd|]. intros s ts. apply source_closes.
    + eapply (build_returns_error _ _ i (s, Calling)).
      * by rewrite list_lookup_fmap, Hs.
      * apply source_fails. split; [done|]. by exists tokens.
Qed.

Lemma drains_all_deterministic tokenSources tokenss :
  Forall2 (λ s tokens, drains s tokens EOF) tokenSources tokenss →
  ∀ tokenss', Forall2 (λ s tokens, drains s tokens EOF) tokenSources tokenss' →
              tokenss' = tokenss.
Proof.
  induction 1 as [|s ts ss tss Hd _ IH]; intros tss' H'.
  - by apply Forall2_nil_inv_l in H'.
  - apply Forall2_cons_inv_l in H' as (ts' & tss'' & Hd' & Hall & ->).
    destruct (drains_deterministic _ _ _ Hd _ _ Hd') as [-> _].
    by rewrite (IH _ Hall).
Qed.

(** When every source ends with [io.EOF], the only thing the build can
    return, and does return, is the merge of the chains of their tokens. *)
Lemma BuildChainFromSources_all_eof tokenSources tokenss out :
  Forall2 (λ s tokens, drains s tokens EOF) tokenSources tokenss →
  BuildChainFromSources tokenSources out
  ↔ out = (Some (mergeChains (buildChain <$> tokenss)), None).
Proof.
  intros Hall. rewrite BuildChainFromSources_returns. split.
  - intros [(tss' & Hall' & ->)|(i & s & tokens & e & Hs & Hd & Hne & ->)].
    + by rewrite (drains_all_deterministic _ _ Hall _ Hall').
    + destruct (Forall2_lookup_l _ _ _ _ _ Hall Hs) as (ts & _ & Hd').
      destruct (drains_deterministic _ _ _ Hd _ _ Hd') as [_ ->]. done.
  - intros ->. left. by exists tokenss.
Qed.

(** ** C7, C8 and C9 *)

(** C7. Called with no streams, [BuildChainFromSources] returns, and what
    it returns is the chain without links and a nil error; on that chain
    [CalculateNextToken] reports every token as not present, without
    drawing from the random source, and so does [RetrieveMarkovLink]. *)
Theorem BuildChainFromSources_no_streams :
  (∀ out, BuildChainFromSources [] out ↔ out = (Some ∅, None))
  ∧ (∀ token entries rand, CalculateNextToken ∅ token entries rand = Some ("", false))
  ∧ (∀ token, RetrieveMarkovLink ∅ token = (None, false)).
Proof.
  split; [|split].
  - intros out. by rewrite (BuildChainFromSources_all_eof [] []) by constructor.
  - intros token entries rand. unfold CalculateNextToken. by rewrite lookup_empty.
  - intros token. unfold RetrieveMarkovLink. by rewrite lookup_empty.
Qed.

(** C8. When one of the sources, a filtered source included, delivers some
    tokens and then fails with an error that is not [io.EOF], the build can
    return that error with a nil chain, and whatever the build returns is a
    nil chain with the error at which one of the sources failed: it never
    returns a chain. *)
Theorem BuildChainFromSources_failure (tokenSources : list TokenSource) (i : nat)
    (src : TokenSource) (tokens : list string) (e : error) :
  tokenSources !! i = Some src →
  drains src tokens e →
  e ≠ EOF →
  BuildChainFromSources tokenSources (None, Some e)
  ∧ ∀ out, BuildChainFromSources tokenSources out →
      ∃ j src' tokens' e',
        tokenSources !! j = Some src' ∧ drains src' tokens' e' ∧ e' ≠ EOF
        ∧ out = (None, Some e').
Proof.
  intros Hs Hd Hne. split.
  - apply BuildChainFromSources_returns. right. by exists i, src, tokens, e.
  - intros out Hout.
    apply BuildChainFromSources_returns in Hout
      as [(tss & Hall & ->)|(j & s & ts & e' & Hj & Hd' & Hne' & ->)].
    + destruct (Forall2_lookup_l _ _ _ _ _ Hall Hs) as (ts & _ & Hd').
      destruct (drains_deterministic _ _ _ Hd _ _ Hd') as [_ ->]. done.
    + by exists j, s, ts, e'.
Qed.

Lemma BuildChainFromSources_failure_witness :
  let failing := filteredSource (bufioScannerSource (newScanner ["x"; "bad"; "y"] None))
                                (rejecting_filter "bad") [] 0%nat in
  let tokenSources := [bufioScannerSource (newScanner ["a"; "b"] None); failing] in
  BuildChainFromSources tokenSources (None, Some (Failure "rejected"))
  ∧ ∀ out, BuildChainFromSources tokenSources out →
      ∃ j src' tokens' e',
        tokenSources !! j = Some src' ∧ drains src' tokens' e' ∧ e' ≠ EOF
        ∧ out = (None, Some e').
Proof.
  intros failing tokenSources.
  apply (BuildChainFromSources_failure tokenSources 1 failing ["x"] (Failure "rejected")).
  - reflexivity.
  - apply (drains_filteredSource (rejecting_filter "bad") _ ["x"; "bad"; "y"] EOF
             (drains_bufioScannerSource ["x"; "bad"; "y"] "" None) [] 0%nat).
  - discriminate.
Defined.

(** C9. A filtered source delivers, for the tokens of the source it wraps
    taken in order, the tokens of each expansion in order: nothing for an
    empty expansion, and all tokens of an expansion before anything of the
    next candidate. [ApplyFiltersToSource] applies the filters in the order
    given, each to what the one before it delivers. With trim then
    lowercase on the single token "  Foo  ", the source delivers foo, and
    the chain built from it, the only thing the build returns, has the
    links "" -> {foo:1} and foo -> {"":1}: it holds foo and not
    "  Foo  ". *)
Theorem filteredSource_pipeline :
  (∀ src filter tokens e,
     Forall (λ c, (filter c).2 = None) tokens →
     drains src tokens e →
     drains (filteredSource src filter [] 0%nat) (tokens ≫= (λ c, (filter c).1)) e)
  ∧ (∀ src filters tokens e,
       drains src tokens e →
       drains (ApplyFiltersToSource src filters)
         (foldl (λ te filter, filtered_tokens filter te.1 te.2) (tokens, e) filters).1
         (foldl (λ te filter, filtered_tokens filter te.1 te.2) (tokens, e) filters).2)
  ∧ (let src := ApplyFiltersToSource (bufioScannerSource (newScanner ["  Foo  "] None))
                                     [TrimFilter; LowercaseFilter] in
     let chain : singleKeyChain :=
       {[ "" := mkLink "" {[ "foo" := 1 ]} 1; "foo" := mkLink "foo" {[ "" := 1 ]} 1 ]} in
     drains src ["foo"] EOF
     ∧ (∀ out, BuildChainFromSources [src] out ↔ out = (Some chain, None))
     ∧ is_Some (chain !! "foo")
     ∧ chain !! "  Foo  " = None
     ∧ ∀ key l, chain !! key = Some l → NextTokenOccurrences l !! "  Foo  " = None).
Proof.
  split; [|split].
  - intros src filter tokens e Hf Hd.
    pose proof (drains_filteredSource filter src tokens e Hd [] 0%nat) as H.
    by rewrite filtered_tokens_flat_map in H.
  - intros src filters tokens e Hd. by apply drains_ApplyFiltersToSource.
  - intros src chain.
    assert (Hd : drains src ["foo"] EOF).
    { apply (drains_ApplyFiltersToSource [TrimFilter; LowercaseFilter] _ ["  Foo  "] EOF
               (drains_bufioScannerSource ["  Foo  "] "" None)). }
    split; [done|]. split; [|split; [|split]].
    + intros out. rewrite (BuildChainFromSources_all_eof [src] [["foo"]]).
      * assert (mergeChains (buildChain <$> [["foo"]]) = chain) as ->; [|done].
        vm_compute. reflexivity.
      * constructor; [done | constructor].
    + vm_compute. eauto.
    + vm_compute. reflexivity.
    + intros key l. unfold chain. rewrite lookup_insert_Some, lookup_singleton_Some.
      intros [[_ <-]|[_ [_ <-]]]; simpl; by apply lookup_singleton_ne.
Qed.

Lemma filteredSource_pipeline_witness :
  drains (filteredSource (bufioScannerSource (newScanner ["a b"; "  "; "C"] None))
                         (λ c, (String.words c, None)) [] 0%nat)
         ["a"; "b"; "C"] EOF.
Proof.
  apply (proj1 filteredSource_pipeline
           (bufioScannerSource (newScanner ["a b"; "  "; "C"] None))
           (λ c, (String.words c, None)) ["a b"; "  "; "C"] EOF).
  - repeat constructor.
  - apply drains_bufioScannerSource.
Defined.

(** ** The goroutine of a scanner *)

Lemma Scan_true sc sc' :
  Scan sc = (true, sc') →
  ∃ t rest, sc_tokens sc = t :: rest ∧ sc' = mkScanner rest t (sc_failure sc).
Proof. unfold Scan. destruct (sc_tokens sc) as [|t rest]; intros [= <-]. by exists t, rest. Qed.

Lemma Scan_false sc sc' :
  Scan sc = (false, sc') → sc_tokens sc = [] ∧ sc' = mkScanner [] "" (sc_failure sc).
Proof. unfold Scan. destruct (sc_tokens sc) as [|t rest]; by intros [= <-]. Qed.

Lemma nonempty_tokens_snoc seen t :
  nonempty_tokens (seen ++ [t])
  = if decide (t = "") then nonempty_tokens seen else nonempty_tokens seen ++ [t].
Proof.
  unfold nonempty_tokens. rewrite filter_app, filter_cons, filter_nil.
  destruct (decide (t = "")) as [->|Hne].
  - rewrite decide_False by naive_solver. by rewrite app_nil_r.
  - by rewrite decide_True.
Qed.

Lemma nonempty_tokens_id tokens : "" ∉ tokens → nonempty_tokens tokens = tokens.
Proof.
  unfold nonempty_tokens. induction tokens as [|t ts IH]; intros Hnot; [done|].
  rewrite filter_cons, decide_True.
  - f_equal. apply IH. intros Hin. apply Hnot. by right.
  - intros ->. apply Hnot. by left.
Qed.

Lemma scanner_runs_inv sc0 tokens b p :
  runs scanner_step (sc0, Scanning) tokens b p →
  match p.2 with
  | Scanning => b = false ∧ ∃ seen, scanned sc0 seen p.1 ∧ tokens = nonempty_tokens seen
  | SendingText t =>
      b = false ∧ t ≠ ""
      ∧ ∃ seen, scanned sc0 (seen ++ [t]) p.1 ∧ tokens = nonempty_tokens seen
  | Reporting e => b = false ∧ ∃ msg, sc_failure sc0 = Some msg ∧ e = Failure msg
  | Closing =>
      b = false ∧ sc_failure sc0 = None ∧ tokens = nonempty_tokens (sc_tokens sc0)
  | Finished =>
      b = true ∧ sc_failure sc0 = None ∧ tokens = nonempty_tokens (sc_tokens sc0)
  end.
Proof.
  remember (sc0, Scanning) as p0 eqn:Hp0.
  induction 1 as [p|p tokens b p' p'' _ IH Hp|p tokens p' t p'' _ IH Hp
                 |p tokens p' p'' _ IH Hp]; subst p.
  - simpl. split; [done|]. exists []. split; [|done]. by split.
  - specialize (IH eq_refl). inversion Hp as [sc sc' HS Ht|sc sc' HS Ht| |sc sc' e HS He Hne
                                             |sc sc' HS He| |]; subst; simpl in *.
    + destruct IH as [-> (seen & [Hseen Hfail] & ->)].
      apply Scan_true in HS as (t & rest & Htok & ->). simpl in *.
      split; [done|]. split; [done|]. exists seen. split; [|done].
      split; simpl; [|done]. by rewrite Hseen, Htok, <- app_assoc.
    + destruct IH as [-> (seen & [Hseen Hfail] & ->)].
      apply Scan_true in HS as (t & rest & Htok & ->). simpl in *. subst t.
      split; [done|]. exists (seen ++ [""]). split.
      * split; simpl; [|done]. by rewrite Hseen, Htok, <- app_assoc.
      * by rewrite nonempty_tokens_snoc, decide_True.
    + destruct IH as [-> (seen & [Hseen Hfail] & ->)].
      apply Scan_false in HS as (Htok & ->). unfold Err in He. simpl in *.
      split; [done|]. rewrite Hfail in He.
      destruct (sc_failure sc0) as [msg|]; simplify_eq/=. by exists msg.
    + destruct IH as [-> (seen & [Hseen Hfail] & ->)].
      apply Scan_false in HS as (Htok & ->). unfold Err in He. simpl in *.
      rewrite Hfail in He. rewrite Htok, app_nil_r in Hseen.
      split; [done|]. split; [|by rewrite Hseen].
      destruct (sc_failure sc0); [|done]. by destruct He.
  - specialize (IH eq_refl). inversion Hp; subst; simpl in *.
    destruct IH as (_ & Hne & seen & Hsc & ->). split; [done|].
    exists (seen ++ [t]). split; [done|].
    by rewrite nonempty_tokens_snoc, decide_False.
  - specialize (IH eq_refl). inversion Hp; subst; simpl in *.
    destruct IH as (_ & Hf & ->). done.
Qed.

Lemma scanner_runs_all tokens : ∀ text failure,
  ∃ text', runs scanner_step (mkScanner tokens text failure, Scanning)
                (nonempty_tokens tokens) false (mkScanner [] text' failure, Scanning).
Proof.
  induction tokens as [|t ts IH]; intros text failure.
  - exists text. constructor.
  - destruct (IH t failure) as [text' Hruns]. exists text'.
    unfold nonempty_tokens. rewrite filter_cons.
    destruct (decide (t ≠ "")) as [Hne|Heq].
    + eapply runs_tau_l; [by apply (scanner_token _ (mkScanner ts t failure))|].
      eapply runs_send_l; [apply scanner_send | exact Hruns].
    + eapply runs_tau_l; [|exact Hruns].
      apply (scanner_empty _ (mkScanner ts t failure)); [done|].
      simpl. by destruct (decide (t = "")).
Qed.

Lemma scanner_closes sc tokens :
  closes scanner_step (sc, Scanning) tokens
  ↔ sc_failure sc = None ∧ tokens = nonempty_tokens (sc_tokens sc).
Proof.
  split.
  - intros [[sc' pc] Hruns]. apply scanner_runs_inv in Hruns. simpl in Hruns.
    destruct pc; by destruct Hruns.
  - intros [Hf ->]. destruct sc as [toks text failure]. simpl in *. subst failure.
    destruct (scanner_runs_all toks text None) as [text' Hruns].
    exists (mkScanner [] "" None, Finished).
    eapply runs_close; [|apply scanner_close].
    eapply runs_tau; [exact Hruns|]. apply scanner_ended; [done|]. by left.
Qed.

Lemma scanner_fails sc e :
  fails scanner_step (sc, Scanning) e
  ↔ ∃ msg, sc_failure sc = Some msg ∧ e = Failure msg.
Proof.
  split.
  - intros (tokens & b & p' & p'' & Hruns & Hstep).
    apply scanner_runs_inv in Hruns. inversion Hstep; subst; simpl in *.
    by destruct Hruns as (_ & ?).
  - intros (msg & Hf & ->). destruct sc as [toks text failure]. simpl in *. subst failure.
    destruct (scanner_runs_all toks text (Some msg)) as [text' Hruns].
    exists (nonempty_tokens toks), false,
      (mkScanner [] "" (Some msg), Reporting (Failure msg)),
      (mkScanner [] "" (Some msg), Closing).
    split; [|constructor].
    eapply runs_tau; [exact Hruns|]. by apply scanner_failed.
Qed.

(** ** The two versions of [BuildChainFromScanners] *)

Lemma Forall2_graph {A B} (Q : A → Prop) (f : A → B) (l : list A) (k : list B) :
  Forall2 (λ a b, Q a ∧ b = f a) l k ↔ Forall Q l ∧ k = f <$> l.
Proof.
  split.
  - induction 1 as [|a b l k [Ha ->] _ [IH1 ->]]; [done|]. split; [by constructor | done].
  - intros [Hall ->]. induction Hall as [|a l Ha _ IH]; by constructor.
Qed.

Lemma Channels_returns tokenSources out :
  Channels.BuildChainFromScanners tokenSources out ↔
    (Forall (λ sc, sc_failure sc = None) tokenSources
     ∧ out = (Some (mergeChains
                      (buildChain <$> ((λ sc, nonempty_tokens (sc_tokens sc)) <$> tokenSources))),
              None))
    ∨ (∃ i sc msg, tokenSources !! i = Some sc ∧ sc_failure sc = Some msg
                   ∧ out = (None, Some (Failure msg))).
Proof.
  unfold Channels.BuildChainFromScanners.
  assert (Hcl : ∀ tss,
    Forall2 (closes scanner_step) ((λ v, (v, Scanning)) <$> tokenSources) tss
    ↔ Forall (λ sc, sc_failure sc = None) tokenSources
      ∧ tss = (λ sc, nonempty_tokens (sc_tokens sc)) <$> tokenSources).
  { intros tss. rewrite Forall2_fmap_l, <- Forall2_graph.
    split; intros H; (eapply Forall2_impl; [exact H|]); intros sc ts; apply scanner_closes. }
  split.
  - intros Hret.
    apply build_returns_sound in Hret as [(tss & Hc & ->)|(i & p & e & Hp & Hf & ->)].
    + left. apply Hcl in Hc as [Hall ->]. done.
    + right. apply list_lookup_fmap_Some in Hp as (sc & -> & Hs).
      apply scanner_fails in Hf as (msg & Hmsg & ->). by exists i, sc, msg.
  - intros [[Hall ->]|(i & sc & msg & Hs & Hmsg & ->)].
    + apply build_returns_chain, Hcl. done.
    + eapply (build_returns_error _ _ i (sc, Scanning)).
      * by rewrite list_lookup_fmap, Hs.
      * apply scanner_fails. by exists msg.
Qed.

Lemma drains_bufioScannerSource_iff sc tokens e :
  drains (bufioScannerSource sc) tokens e ↔ tokens = sc_tokens sc ∧ e = scanner_end sc.
Proof.
  destruct sc as [toks text failure].
  pose proof (drains_bufioScannerSource toks text failure) as Hd. split.
  - intros Hd'. destruct (drains_deterministic _ _ _ Hd _ _ Hd') as [-> ->]. done.
  - by intros [-> ->].
Qed.

Lemma scanner_end_EOF sc : scanner_end sc = EOF ↔ sc_failure sc = None.
Proof. unfold scanner_end. by destruct (sc_failure sc). Qed.

Lemma Adapter_returns tokenSources out :
  Adapter.BuildChainFromScanners tokenSources out ↔
    (Forall (λ sc, sc_failure sc = None) tokenSources
     ∧ out = (Some (mergeChains (buildChain <$> (sc_tokens <$> tokenSources))), None))
    ∨ (∃ i sc msg, tokenSources !! i = Some sc ∧ sc_failure sc = Some msg
                   ∧ out = (None, Some (Failure msg))).
Proof.
  unfold Adapter.BuildChainFromScanners, SourcesFromScanners.
  rewrite BuildChainFromSources_returns.
  assert (Hcl : ∀ tss,
    Forall2 (λ s tokens, drains s tokens EOF) (bufioScannerSource <$> tokenSources) tss
    ↔ Forall (λ sc, sc_failure sc = None) tokenSources ∧ tss = sc_tokens <$> tokenSources).
  { intros tss. rewrite Forall2_fmap_l, <- Forall2_graph.
    split; intros H; (eapply Forall2_impl; [exact H|]); intros sc ts; simpl;
      rewrite drains_bufioScannerSource_iff, <- scanner_end_EOF; intros [? ?]; by split. }
  split.
  - intros [(tss & Hd & ->)|(i & s & tokens & e & Hs & Hd & Hne & ->)].
    + left. apply Hcl in Hd as [Hall ->]. done.
    + right. apply list_lookup_fmap_Some in Hs as (sc & -> & Hs).
      apply drains_bufioScannerSource_iff in Hd as [_ ->].
      unfold scanner_end in *. destruct (sc_failure sc) as [msg|] eqn:Hmsg; [|done].
      by exists i, sc, msg.
  - intros [[Hall ->]|(i & sc & msg & Hs & Hmsg & ->)].
    + left. eexists. split; [by apply Hcl|done].
    + right. exists i, (bufioScannerSource sc), (sc_tokens sc), (Failure msg).
      split; [by rewrite list_lookup_fmap, Hs|]. split; [|done].
      apply drains_bufioScannerSource_iff. split; [done|].
      unfold scanner_end. by rewrite Hmsg.
Qed.

(** C10, as the code has it. For scanners that deliver no empty token, the
    version of [BuildChainFromScanners] that feeds the channels itself and
    the version over [SourcesFromScanners] and [BuildChainFromSources]
    return the same: the same chain, link for link, when no scanner fails,
    and the same errors when one does. *)
Theorem BuildChainFromScanners_versions_agree (tokenSources : list Scanner) :
  Forall (λ sc, "" ∉ sc_tokens sc) tokenSources →
  ∀ out, Channels.BuildChainFromScanners tokenSources out
         ↔ Adapter.BuildChainFromScanners tokenSources out.
Proof.
  intros Hne out. rewrite Channels_returns, Adapter_returns.
  assert ((λ sc, nonempty_tokens (sc_tokens sc)) <$> tokenSources
          = sc_tokens <$> tokenSources) as ->; [|done].
  apply Forall_fmap_ext. eapply Forall_impl; [exact Hne|].
  intros sc. apply nonempty_tokens_id.
Qed.

Lemma BuildChainFromScanners_versions_agree_witness :
  Channels.BuildChainFromScanners
    [newScanner ["a"; "b"] None; newScanner ["b"] (Some "read error")]
    (None, Some (Failure "read error"))
  ↔ Adapter.BuildChainFromScanners
      [newScanner ["a"; "b"] None; newScanner ["b"] (Some "read error")]
      (None, Some (Failure "read error")).
Proof.
  apply (BuildChainFromScanners_versions_agree
           [newScanner ["a"; "b"] None; newScanner ["b"] (Some "read error")]).
  repeat constructor; simpl; intros Hin; repeat (apply elem_of_cons in Hin as [Hin|Hin]; [done|]);
    by apply elem_of_nil in Hin.
Defined.

(** C10, as stated, fails on a scanner that delivers an empty token: for
    the single scanner with the one token "", the channel version drops the
    token and returns the chain "" -> {"":1}, which the version over
    [BuildChainFromSources], passing the token on, cannot return. *)
Lemma BuildChainFromScanners_versions_differ :
  let tokenSources := [newScanner [""] None] in
  let chain : singleKeyChain := {[ "" := mkLink "" {[ "" := 1 ]} 1 ]} in
  Channels.BuildChainFromScanners tokenSources (Some chain, None)
  ∧ ¬ Adapter.BuildChainFromScanners tokenSources (Some chain, None).
Proof.
  intros tokenSources chain. split.
  - apply Channels_returns. left. split; [by repeat constructor|].
    vm_compute. reflexivity.
  - rewrite Adapter_returns. intros [[_ Heq]|(i & sc & msg & _ & _ & Heq)]; [|done].
    assert (Hl : Total <$> chain !! ""
                 = Total <$> mergeChains (buildChain <$> (sc_tokens <$> tokenSources)) !! "")
      by congruence.
    vm_compute in Hl. discriminate.
Qed.

(** * Further properties *)

(** ** What [buildChain] counts *)

Lemma appendToChain_counts c prev next :
  chain_invariant c →
  chain_weight c + 1 ≤ GoInt.maxInt →
  ∀ p n,
    transition_count (appendToChain c prev next) p n
    = transition_count c p n + (if decide (prev = p ∧ next = n) then 1 else 0)
    ∧ link_total (appendToChain c prev next) p
      = link_total c p + (if decide (prev = p) then 1 else 0).
Proof.
  intros Hc Hfit p n. pose proof (chain_total_le_weight c prev Hc) as Hb.
  unfold transition_count, link_total, appendToChain.
  set (b := match c !! prev with None => newLink prev | Some e => e end).
  assert (Hbinv : link_invariant b).
  { subst b. destruct (c !! prev) eqn:E; [by apply (Hc prev) | apply link_invariant_newLink]. }
  assert (Hbtot : Total b = from_option Total 0 (c !! prev)).
  { subst b. by destruct (c !! prev). }
  assert (Hbocc : ∀ k, occ_get (NextTokenOccurrences b) k
                       = match c !! prev with
                         | Some l => occ_get (NextTokenOccurrences l) k
                         | None => 0
                         end).
  { intros k. subst b. by destruct (c !! prev). }
  destruct Hbinv as [Hsum Hpos].
  pose proof (occ_get_bounds (NextTokenOccurrences b) next Hpos) as Hg.
  assert (Hadd1 : GoInt.add (occ_get (NextTokenOccurrences b) next) 1
                  = occ_get (NextTokenOccurrences b) next + 1).
  { apply add_exact. unfold GoInt.in_range, GoInt.minInt, GoInt.maxInt in *. lia. }
  assert (Hadd2 : GoInt.add (Total b) 1 = Total b + 1).
  { apply add_exact. unfold GoInt.in_range, GoInt.minInt, GoInt.maxInt in *. lia. }
  rewrite Hadd1, Hadd2.
  destruct (decide (prev = p)) as [<-|Hne].
  - rewrite lookup_insert_eq. simpl. rewrite Hbtot. split; [|done].
    rewrite <- Hbocc. unfold occ_get at 1.
    destruct (decide (next = n)) as [<-|Hnn].
    + rewrite lookup_insert_eq. simpl. rewrite decide_True by done. done.
    + rewrite lookup_insert_ne by done. rewrite decide_False by tauto.
      unfold occ_get. lia.
  - rewrite lookup_insert_ne by done. rewrite decide_False by tauto. split; lia.
Qed.

Lemma count_pairs_snoc p n l a b :
  count_pairs p n (l ++ [a; b])
  = count_pairs p n (l ++ [a]) + (if decide (a = p ∧ b = n) then 1 else 0).
Proof.
  induction l as [|x [|y l] IH]; simpl in *.
  - lia.
  - lia.
  - rewrite IH. lia.
Qed.

Lemma count_token_app p l1 l2 :
  count_token p (l1 ++ l2) = count_token p l1 + count_token p l2.
Proof. induction l1 as [|x l1 IH]; simpl; [done | rewrite IH; lia]. Qed.

Lemma buildChain_loop_counts tokens : ∀ c lastVal0 seen,
  chain_invariant c →
  chain_weight c + Z.of_nat (length tokens) ≤ GoInt.maxInt →
  (∀ p n, transition_count c p n = count_pairs p n (seen ++ [lastVal0])
          ∧ link_total c p = count_token p seen) →
  let r := buildChain_loop c lastVal0 tokens in
  chain_invariant r.1
  ∧ chain_weight r.1 = chain_weight c + Z.of_nat (length tokens)
  ∧ ∃ seen', seen' ++ [r.2] = seen ++ lastVal0 :: tokens
             ∧ ∀ p n, transition_count r.1 p n = count_pairs p n (seen' ++ [r.2])
                      ∧ link_total r.1 p = count_token p seen'.
Proof.
  induction tokens as [|t ts IH]; intros c lastVal0 seen Hc Hfit Hcount; simpl in *.
  - split; [done|]. split; [lia|]. by exists seen.
  - destruct (appendToChain_invariant c lastVal0 t Hc) as [Hc' Hw']; [lia|].
    destruct (IH (appendToChain c lastVal0 t) t (seen ++ [lastVal0]) Hc')
      as (Hc'' & Hw'' & seen' & Hseen & Hcount'); [lia| |].
    + intros p n.
      destruct (appendToChain_counts c lastVal0 t Hc ltac:(lia) p n) as [-> ->].
      destruct (Hcount p n) as [-> ->].
      rewrite <- app_assoc. simpl. rewrite count_pairs_snoc, count_token_app. simpl.
      split; [done | lia].
    + split; [done|]. split; [lia|]. exists seen'. split; [|done].
      rewrite Hseen, <- app_assoc. done.
Qed.

Lemma buildChain_counts_aux (tokens : list string) (prev next : string) :
  transitions tokens ≤ GoInt.maxInt →
  transition_count (buildChain tokens) prev next
    = count_pairs prev next (with_sentinels tokens)
  ∧ link_total (buildChain tokens) prev = count_token prev ("" :: tokens).
Proof.
  unfold transitions, buildChain, with_sentinels. intros Hfit.
  destruct (buildChain_loop_counts tokens ∅ "" [] chain_invariant_empty)
    as (Hc & Hw & seen' & Hseen & Hcount).
  { unfold chain_weight. rewrite map_sum_empty. lia. }
  { intros p n. unfold transition_count, link_total. by rewrite lookup_empty. }
  destruct (buildChain_loop ∅ "" tokens) as [links lastVal].
  simpl in Hc, Hw, Hseen, Hcount.
  unfold chain_weight in Hw at 2. rewrite map_sum_empty in Hw.
  destruct (appendToChain_counts links lastVal "" Hc ltac:(lia) prev next) as [-> ->].
  destruct (Hcount prev next) as [-> ->].
  replace ("" :: tokens ++ [""]) with (seen' ++ [lastVal; ""]).
  - rewrite <- Hseen, count_token_app, count_pairs_snoc. simpl. split; [done | lia].
  - change ("" :: tokens ++ [""]) with (("" :: tokens) ++ [""]).
    rewrite <- Hseen, <- app_assoc. done.
Qed.

(** X1. For a stream whose transitions fit Go's [int], the chain of
    [buildChain] records after each token exactly how often each token
    directly follows it in the stream put between the two sentinels, and
    the total of a token's link is the number of times the token occurs in
    the stream (the start sentinel counted once). *)
Theorem buildChain_counts (tokens : list string) (prev next : string) :
  transitions tokens ≤ GoInt.maxInt →
  transition_count (buildChain tokens) prev next
    = count_pairs prev next (with_sentinels tokens)
  ∧ link_total (buildChain tokens) prev = count_token prev ("" :: tokens).
Proof. apply buildChain_counts_aux. Qed.

Lemma buildChain_counts_witness :
  transition_count (buildChain ["a"; "b"; "a"; "b"]) "a" "b"
    = count_pairs "a" "b" (with_sentinels ["a"; "b"; "a"; "b"])
  ∧ link_total (buildChain ["a"; "b"; "a"; "b"]) "a"
    = count_token "a" ("" :: ["a"; "b"; "a"; "b"]).
Proof.
  apply (buildChain_counts ["a"; "b"; "a"; "b"] "a" "b").
  vm_compute. discriminate.
Defined.

(** ** Which tokens have a link *)

Lemma dom_appendToChain c prev next :
  dom (appendToChain c prev next) = {[prev]} ∪ dom c.
Proof. unfold appendToChain. by rewrite dom_insert_L. Qed.

Lemma dom_buildChain_loop tokens : ∀ c lastVal0,
  dom (buildChain_loop c lastVal0 tokens).1
  ∪ {[(buildChain_loop c lastVal0 tokens).2]}
  = dom c ∪ {[lastVal0]} ∪ list_to_set tokens.
Proof.
  induction tokens as [|t ts IH]; intros c lastVal0; simpl.
  - set_solver.
  - rewrite IH, dom_appendToChain. set_solver.
Qed.

Lemma dom_buildChain (tokens : list string) :
  dom (buildChain tokens) = {[""]} ∪ list_to_set tokens.
Proof.
  unfold buildChain.
  pose proof (dom_buildChain_loop tokens ∅ "") as H.
  destruct (buildChain_loop ∅ "" tokens) as [links lastVal]. simpl in *.
  rewrite dom_appendToChain, (comm_L (∪)), H, dom_empty_L. by rewrite (left_id_L ∅ (∪)).
Qed.

(** X2. The chain of [buildChain] has a link for the sentinel and for every
    token of the stream, for nothing else, and each link is stored under
    its own source token: looking a token up gives the link that carries
    that token. *)
Theorem buildChain_links (tokens : list string) :
  dom (buildChain tokens) = {[""]} ∪ list_to_set tokens
  ∧ ∀ token,
      RetrieveMarkovLink (buildChain tokens) token = (None, false)
      ∨ ∃ l, RetrieveMarkovLink (buildChain tokens) token = (Some l, true)
             ∧ Token l = token.
Proof.
  split.
  - apply dom_buildChain.
  - intros token. unfold RetrieveMarkovLink.
    destruct (buildChain tokens !! token) as [l|] eqn:Hl; [|by left].
    right. exists l. split; [done|].
    by destruct (count_table_buildChain tokens token l Hl).
Qed.

(** ** What [mergeChains] adds up *)

Lemma occ_get_insert (m : gmap string Z) i v k :
  occ_get (<[i := v]> m) k = if decide (i = k) then v else occ_get m k.
Proof.
  unfold occ_get. destruct (decide (i = k)) as [<-|Hne].
  - by rewrite lookup_insert_eq.
  - by rewrite lookup_insert_ne.
Qed.

Lemma addOccurrences_lookup (o : gmap string Z) : ∀ m : gmap string Z,
  (∀ k v, m !! k = Some v → 0 < v) →
  (∀ k v, o !! k = Some v → 0 < v) →
  sum_occurrences m + sum_occurrences o ≤ GoInt.maxInt →
  ∀ k, occ_get (addOccurrences m (map_to_list o)) k = occ_get m k + occ_get o k.
Proof.
  induction o as [|i x o Hi IH] using map_ind; intros m Hm Ho Hfit k.
  - rewrite map_to_list_empty. simpl. unfold occ_get at 3. rewrite lookup_empty. simpl. lia.
  - assert (Hx : 0 < x) by (apply (Ho i); by rewrite lookup_insert_eq).
    assert (Ho' : ∀ k v, o !! k = Some v → 0 < v).
    { intros k' v Hk. apply (Ho k'). rewrite lookup_insert_ne; [done|congruence]. }
    assert (Hso : sum_occurrences (<[i := x]> o) = x + sum_occurrences o).
    { rewrite sum_occurrences_insert. unfold occ_get. rewrite Hi. simpl. lia. }
    assert (0 ≤ sum_occurrences o).
    { rewrite sum_occurrences_map_sum. apply map_sum_nonneg.
      intros k' v Hk. apply Ho' in Hk. unfold id. lia. }
    rewrite (addOccurrences_perm _ _ (map_to_list o ++ [(i, x)])).
    2:{ rewrite map_to_list_insert by done. apply Permutation_cons_append. }
    rewrite addOccurrences_app. cbn [addOccurrences foldl].
    pose proof (IH m Hm Ho' ltac:(lia)) as Hlk.
    pose proof (occ_get_bounds m i Hm) as Hb.
    assert (Hget : occ_get (addOccurrences m (map_to_list o)) i = occ_get m i).
    { rewrite Hlk. unfold occ_get at 2. rewrite Hi. simpl. lia. }
    rewrite Hget.
    assert (Hadd : GoInt.add (occ_get m i) x = occ_get m i + x).
    { apply add_exact. unfold GoInt.in_range, GoInt.minInt, GoInt.maxInt in *. lia. }
    rewrite Hadd, !occ_get_insert.
    destruct (decide (i = k)) as [<-|Hne]; [done|]. apply Hlk.
Qed.

Lemma mergeLink_counts d l :
  chain_invariant d →
  link_invariant l →
  chain_weight d + Total l ≤ GoInt.maxInt →
  ∀ p n,
    transition_count (mergeLink d (l, map_to_list (NextTokenOccurrences l))) p n
    = transition_count d p n
      + (if decide (Token l = p) then occ_get (NextTokenOccurrences l) n else 0)
    ∧ link_total (mergeLink d (l, map_to_list (NextTokenOccurrences l))) p
      = link_total d p + (if decide (Token l = p) then Total l else 0).
Proof.
  intros Hd [Hsum Hpos] Hfit p n.
  pose proof (chain_total_le_weight d (Token l) Hd) as Hb.
  pose proof (link_invariant_total_nonneg l (conj Hsum Hpos)) as Hl0.
  unfold transition_count, link_total, mergeLink.
  set (b := match d !! Token l with None => newLink (Token l) | Some e => e end).
  assert (Hbinv : link_invariant b).
  { subst b. destruct (d !! Token l) eqn:E;
      [by apply (Hd (Token l)) | apply link_invariant_newLink]. }
  assert (Hbtot : Total b = from_option Total 0 (d !! Token l)).
  { subst b. by destruct (d !! Token l). }
  assert (Hbocc : ∀ k, occ_get (NextTokenOccurrences b) k
                       = match d !! Token l with
                         | Some l' => occ_get (NextTokenOccurrences l') k
                         | None => 0
                         end).
  { intros k. subst b. by destruct (d !! Token l). }
  destruct Hbinv as [Hbsum Hbpos].
  assert (Hadd : GoInt.add (Total b) (Total l) = Total b + Total l).
  { apply add_exact. unfold GoInt.in_range, GoInt.minInt, GoInt.maxInt in *. lia. }
  rewrite Hadd.
  destruct (decide (Token l = p)) as [<-|Hne].
  - rewrite lookup_insert_eq. simpl. rewrite Hbtot. split; [|done].
    rewrite <- Hbocc. apply addOccurrences_lookup; [done..|lia].
  - rewrite lookup_insert_ne by done. split; lia.
Qed.

Lemma merge_chain_counts (c : singleKeyChain) : ∀ d,
  count_table c → chain_invariant c → chain_invariant d →
  chain_weight d + chain_weight c ≤ GoInt.maxInt →
  let r := foldl mergeLink d (canonical_visit c) in
  chain_invariant r
  ∧ chain_weight r = chain_weight d + chain_weight c
  ∧ ∀ p n, transition_count r p n = transition_count d p n + transition_count c p n
           ∧ link_total r p = link_total d p + link_total c p.
Proof.
  induction c as [|i x c Hi IH] using map_ind; intros d Hkey Hc Hd Hfit r; subst r.
  - rewrite canonical_visit_empty. simpl. split; [done|].
    unfold chain_weight at 3. rewrite map_sum_empty. split; [lia|].
    intros p n. unfold transition_count, link_total. rewrite lookup_empty. simpl. lia.
  - assert (Hkey' : count_table c).
    { intros k l Hl. apply Hkey. rewrite lookup_insert_ne; [done|congruence]. }
    assert (Hc' : chain_invariant c).
    { intros k l Hl. apply (Hc k). rewrite lookup_insert_ne; [done|congruence]. }
    assert (Hx : link_invariant x) by (apply (Hc i); by rewrite lookup_insert_eq).
    assert (Hxi : Token x = i).
    { destruct (Hkey i x) as [? _]; [by rewrite lookup_insert_eq | done]. }
    assert (Hw : chain_weight (<[i := x]> c) = Total x + chain_weight c).
    { unfold chain_weight. by rewrite map_sum_insert_None. }
    pose proof (link_invariant_total_nonneg x Hx) as Hx0.
    rewrite (foldl_mergeLink_perm _ _ (canonical_visit_insert c i x Hi)), foldl_app.
    destruct (IH d Hkey' Hc' Hd ltac:(lia)) as (Hr & Hwr & Hcount).
    cbn [foldl].
    destruct (mergeLink_invariant (foldl mergeLink d (canonical_visit c)) x
                (map_to_list (NextTokenOccurrences x)) Hr Hx) as [Hr' Hwr'];
      [by unfold range_order | lia |].
    split; [done|]. split; [lia|]. intros p n.
    destruct (mergeLink_counts (foldl mergeLink d (canonical_visit c)) x Hr Hx
                ltac:(lia) p n) as [-> ->].
    destruct (Hcount p n) as [-> ->]. rewrite Hxi.
    unfold transition_count at 4, link_total at 4.
    destruct (decide (i = p)) as [<-|Hne].
    + rewrite lookup_insert_eq. simpl.
      unfold transition_count at 2, link_total at 2. rewrite Hi. simpl. lia.
    + rewrite lookup_insert_ne by done.
      fold (transition_count c p n). fold (link_total c p). lia.
Qed.

Lemma mergeChains_counts_from chains : ∀ d,
  Forall count_table chains → Forall chain_invariant chains → chain_invariant d →
  chain_weight d + sumZ (chain_weight <$> chains) ≤ GoInt.maxInt →
  ∀ p n,
    transition_count
      (foldl (λ m visit, foldl mergeLink m visit) d (canonical_visit <$> chains)) p n
    = transition_count d p n + sumZ ((λ c, transition_count c p n) <$> chains)
    ∧ link_total
        (foldl (λ m visit, foldl mergeLink m visit) d (canonical_visit <$> chains)) p
      = link_total d p + sumZ ((λ c, link_total c p) <$> chains).
Proof.
  induction chains as [|c cs IH]; intros d Hkey Hinv Hd Hfit p n.
  - simpl. lia.
  - apply Forall_cons in Hkey as [Hk Hks]. apply Forall_cons in Hinv as [Hc Hcs].
    rewrite !fmap_cons, !sumZ_cons in *. cbn [foldl].
    assert (0 ≤ sumZ (chain_weight <$> cs)).
    { clear -Hcs. induction Hcs as [|c cs Hc _ IH]; [done|].
      rewrite fmap_cons, sumZ_cons.
      pose proof (chain_total_le_weight c "" Hc). lia. }
    destruct (merge_chain_counts c d Hk Hc Hd ltac:(lia)) as (Hr & Hw & Hcount).
    destruct (IH _ Hks Hcs Hr ltac:(lia) p n) as [-> ->].
    destruct (Hcount p n) as [-> ->]. lia.
Qed.

Lemma mergeChains_adds_counts (chains : list singleKeyChain) (prev next : string) :
  Forall count_table chains →
  Forall chain_invariant chains →
  sumZ (chain_weight <$> chains) ≤ GoInt.maxInt →
  transition_count (mergeChains chains) prev next
    = sumZ ((λ c, transition_count c prev next) <$> chains)
  ∧ link_total (mergeChains chains) prev = sumZ ((λ c, link_total c prev) <$> chains).
Proof.
  intros Hkey Hinv Hfit. unfold mergeChains, mergeChains_visiting.
  destruct (mergeChains_counts_from chains ∅ Hkey Hinv chain_invariant_empty)
    with (p := prev) (n := next) as [-> ->].
  - unfold chain_weight at 1. rewrite map_sum_empty. lia.
  - unfold transition_count, link_total. rewrite lookup_empty. simpl. lia.
Qed.

(** X3. Merging adds the counts up: for count tables that keep the link
    invariant and whose observations together fit Go's [int], the merged
    chain records for every pair of tokens the sum of what the chains
    record for it, and the total of every token is the sum of its totals. *)
Theorem mergeChains_counts (chains : list singleKeyChain) (prev next : string) :
  Forall count_table chains →
  Forall chain_invariant chains →
  sumZ (chain_weight <$> chains) ≤ GoInt.maxInt →
  transition_count (mergeChains chains) prev next
    = sumZ ((λ c, transition_count c prev next) <$> chains)
  ∧ link_total (mergeChains chains) prev = sumZ ((λ c, link_total c prev) <$> chains).
Proof. apply mergeChains_adds_counts. Qed.

Lemma streams_chains_ok (streams : list (list string)) :
  sumZ (transitions <$> streams) ≤ GoInt.maxInt →
  Forall count_table (buildChain <$> streams)
  ∧ Forall chain_invariant (buildChain <$> streams)
  ∧ sumZ (chain_weight <$> (buildChain <$> streams)) = sumZ (transitions <$> streams)
  ∧ Forall (λ tokens, transitions tokens ≤ GoInt.maxInt) streams.
Proof.
  intros Hfit.
  assert (Hpos : ∀ ss : list (list string), 0 ≤ sumZ (transitions <$> ss)).
  { induction ss as [|t ss IH]; csimpl; unfold transitions in *; lia. }
  induction streams as [|t ss IH]; [by repeat split|].
  rewrite !fmap_cons, !sumZ_cons in *. specialize (Hpos ss).
  destruct IH as (Hk & Hi & Hw & Hb); [unfold transitions in *; lia|].
  destruct (buildChain_invariant t) as [Hti Htw]; [lia|].
  split; [constructor; [apply count_table_buildChain | done]|].
  split; [by constructor|]. split; [lia|]. constructor; [lia | done].
Qed.

Lemma mergeChains_counts_witness :
  transition_count (mergeChains [buildChain ["a"; "b"]; buildChain ["a"]]) "" "a"
    = sumZ ((λ c, transition_count c "" "a") <$> [buildChain ["a"; "b"]; buildChain ["a"]])
  ∧ link_total (mergeChains [buildChain ["a"; "b"]; buildChain ["a"]]) ""
    = sumZ ((λ c, link_total c "") <$> [buildChain ["a"; "b"]; buildChain ["a"]]).
Proof.
  apply (mergeChains_counts [buildChain ["a"; "b"]; buildChain ["a"]] "" "a").
  - apply (streams_chains_ok [["a"; "b"]; ["a"]]). vm_compute. discriminate.
  - apply (streams_chains_ok [["a"; "b"]; ["a"]]). vm_compute. discriminate.
  - vm_compute. discriminate.
Defined.

Lemma merged_streams_counts_aux (streams : list (list string)) (prev next : string) :
  sumZ (transitions <$> streams) ≤ GoInt.maxInt →
  transition_count (mergeChains (buildChain <$> streams)) prev next
    = sumZ ((λ tokens, count_pairs prev next (with_sentinels tokens)) <$> streams)
  ∧ link_total (mergeChains (buildChain <$> streams)) prev
    = sumZ ((λ tokens, count_token prev ("" :: tokens)) <$> streams).
Proof.
  intros Hfit. destruct (streams_chains_ok streams Hfit) as (Hk & Hi & Hw & Hb).
  destruct (mergeChains_adds_counts (buildChain <$> streams) prev next Hk Hi
              ltac:(lia)) as [-> ->].
  rewrite <- !list_fmap_compose.
  clear -Hb. induction Hb as [|t ss Ht _ [IH1 IH2]]; [done|].
  rewrite !fmap_cons, !sumZ_cons, IH1, IH2. simpl.
  pose proof (buildChain_counts_aux t prev next Ht) as [-> ->]. done.
Qed.

(** X4. Built from several streams and merged, the chain records for every
    pair of tokens how often the second directly follows the first in the
    streams, each put between the sentinels, all streams taken together;
    the total of a token is the number of its occurrences in all streams,
    the start sentinel counted once per stream. This holds while the
    transitions of all streams together fit Go's [int]. *)
Theorem merged_streams_counts (streams : list (list string)) (prev next : string) :
  sumZ (transitions <$> streams) ≤ GoInt.maxInt →
  transition_count (mergeChains (buildChain <$> streams)) prev next
    = sumZ ((λ tokens, count_pairs prev next (with_sentinels tokens)) <$> streams)
  ∧ link_total (mergeChains (buildChain <$> streams)) prev
    = sumZ ((λ tokens, count_token prev ("" :: tokens)) <$> streams).
Proof. apply merged_streams_counts_aux. Qed.

Lemma merged_streams_counts_witness :
  transition_count (mergeChains (buildChain <$> [["a"; "b"; "a"]; ["b"; "a"]])) "b" "a"
    = sumZ ((λ tokens, count_pairs "b" "a" (with_sentinels tokens))
              <$> [["a"; "b"; "a"]; ["b"; "a"]])
  ∧ link_total (mergeChains (buildChain <$> [["a"; "b"; "a"]; ["b"; "a"]])) "b"
    = sumZ ((λ tokens, count_token "b" ("" :: tokens)) <$> [["a"; "b"; "a"]; ["b"; "a"]]).
Proof.
  apply (merged_streams_counts [["a"; "b"; "a"]; ["b"; "a"]] "b" "a").
  vm_compute. discriminate.
Defined.

(** ** Which tokens the merged chain has links for *)

Lemma dom_foldl_mergeLink visit : ∀ d,
  dom (foldl mergeLink d visit) = dom d ∪ list_to_set ((λ x, Token x.1) <$> visit).
Proof.
  induction visit as [|[l e] v IH]; intros d.
  - simpl. by rewrite (right_id_L ∅ (∪)).
  - cbn [foldl]. rewrite IH, fmap_cons, list_to_set_cons. unfold mergeLink.
    rewrite dom_insert_L. simpl.
    by rewrite (comm_L (∪) {[Token l]} (dom d)), (assoc_L (∪)).
Qed.

Lemma count_table_visit_tokens (c : singleKeyChain) :
  count_table c →
  list_to_set ((λ x, Token x.1) <$> canonical_visit c) = dom c.
Proof.
  intros Hc. apply set_eq. intros k.
  rewrite elem_of_list_to_set, elem_of_dom, list_elem_of_fmap. unfold canonical_visit.
  split.
  - intros ([l e] & -> & Hin). apply list_elem_of_fmap in Hin as (l' & [= <- _] & Hin).
    apply list_elem_of_fmap in Hin as ([k' l''] & -> & Hin). simpl.
    apply elem_of_map_to_list in Hin. destruct (Hc _ _ Hin) as [-> _]. by exists l''.
  - intros [l Hl]. exists (l, map_to_list (NextTokenOccurrences l)). split.
    + simpl. by destruct (Hc _ _ Hl) as [-> _].
    + apply list_elem_of_fmap. exists l. split; [done|].
      apply list_elem_of_fmap. exists (k, l). split; [done|]. by apply elem_of_map_to_list.
Qed.

Lemma dom_mergeChains (chains : list singleKeyChain) :
  Forall count_table chains → dom (mergeChains chains) = ⋃ (dom <$> chains).
Proof.
  intros Hkey. unfold mergeChains, mergeChains_visiting.
  assert (H : ∀ d, dom (foldl (λ m visit, foldl mergeLink m visit) d
                          (canonical_visit <$> chains))
                   = dom d ∪ ⋃ (dom <$> chains)).
  { induction Hkey as [|c cs Hc _ IH]; intros d.
    - simpl. by rewrite (right_id_L ∅ (∪)).
    - rewrite !fmap_cons. cbn [foldl]. rewrite IH, dom_foldl_mergeLink.
      rewrite count_table_visit_tokens by done. simpl.
      by rewrite (assoc_L (∪)). }
  rewrite H, dom_empty_L. by rewrite (left_id_L ∅ (∪)).
Qed.

(** X5. For count tables, the merged chain has a link for exactly the
    tokens that have a link in one of the chains, and stores each link
    under its own source token. *)
Theorem mergeChains_links (chains : list singleKeyChain) :
  Forall count_table chains →
  dom (mergeChains chains) = ⋃ (dom <$> chains)
  ∧ ∀ token,
      RetrieveMarkovLink (mergeChains chains) token = (None, false)
      ∨ ∃ l, RetrieveMarkovLink (mergeChains chains) token = (Some l, true)
             ∧ Token l = token.
Proof.
  intros Hkey. split.
  - by apply dom_mergeChains.
  - intros token. unfold RetrieveMarkovLink.
    destruct (mergeChains chains !! token) as [l|] eqn:Hl; [|by left].
    right. exists l. split; [done|].
    by destruct (count_table_mergeChains chains token l Hl).
Qed.

Lemma mergeChains_links_witness :
  dom (mergeChains [buildChain ["a"]; buildChain ["b"]])
  = ⋃ (dom <$> [buildChain ["a"]; buildChain ["b"]])
  ∧ ∀ token,
      RetrieveMarkovLink (mergeChains [buildChain ["a"]; buildChain ["b"]]) token
      = (None, false)
      ∨ ∃ l, RetrieveMarkovLink (mergeChains [buildChain ["a"]; buildChain ["b"]]) token
             = (Some l, true)
             ∧ Token l = token.
Proof.
  apply (mergeChains_links [buildChain ["a"]; buildChain ["b"]]).
  apply Forall_cons. split; [apply count_table_buildChain|].
  apply Forall_cons. split; [apply count_table_buildChain | apply Forall_nil_2].
Defined.

(** ** The draws of the sampler *)

Lemma filter_all_elem {A} (P : A → Prop) `{!∀ x, Decision (P x)} (l : list A) :
  (∀ x, x ∈ l → P x) → filter P l = l.
Proof.
  induction l as [|a l IH]; intros Hall; [done|].
  rewrite filter_cons, decide_True by (apply Hall; left).
  f_equal. apply IH. intros x Hx. apply Hall. by right.
Qed.

Lemma filter_none_elem {A} (P : A → Prop) `{!∀ x, Decision (P x)} (l : list A) :
  (∀ x, x ∈ l → ¬ P x) → filter P l = [].
Proof.
  induction l as [|a l IH]; intros Hall; [done|].
  rewrite filter_cons, decide_False by (apply Hall; left).
  apply IH. intros x Hx. apply Hall. by right.
Qed.

(** Of the draws [0 .. total-1], those for which [P] holds, when they are
    the ones from [lo] to [hi]. *)
Lemma count_interval (P : Z → Prop) `{!∀ x, Decision (P x)} lo hi total :
  0 ≤ lo → lo ≤ hi + 1 → hi < total →
  (∀ g, 0 ≤ g < total → (P g ↔ lo ≤ g ≤ hi)) →
  Z.of_nat (length (filter P (seqZ 0 total))) = hi - lo + 1.
Proof.
  intros Hlo Hhi Htot HP.
  replace total with (lo + ((hi - lo + 1) + (total - hi - 1))) by lia.
  rewrite seqZ_app, seqZ_app, !filter_app by lia.
  rewrite (filter_none_elem P (seqZ 0 lo)), (filter_all_elem P (seqZ (0 + lo) _)),
    (filter_none_elem P (seqZ (0 + lo + _) _)).
  - rewrite app_nil_r. simpl. rewrite length_seqZ. lia.
  - intros g Hg. apply elem_of_seqZ in Hg. rewrite HP by lia. lia.
  - intros g Hg. apply elem_of_seqZ in Hg. rewrite HP by lia. lia.
  - intros g Hg. apply elem_of_seqZ in Hg. rewrite HP by lia. lia.
Qed.

Lemma sumZ_positive_nonneg (entries : list (string * Z)) :
  Forall (λ kv, 0 < kv.2) entries → 0 ≤ sumZ entries.*2.
Proof.
  induction 1 as [|[k v] r Hv _ IH]; [done|].
  rewrite fmap_cons, sumZ_cons. simpl in *. lia.
Qed.

(** The walk passes the entries whose sum stays below the goal. *)
Lemma GetNextToken_loop_skip goalSum rest (pre : list (string * Z)) : ∀ sum,
  Forall (λ kv, 0 < kv.2) pre →
  0 ≤ sum → sum + sumZ pre.*2 ≤ GoInt.maxInt →
  sum + sumZ pre.*2 < goalSum →
  GetNextToken_loop sum goalSum (pre ++ rest)
  = GetNextToken_loop (sum + sumZ pre.*2) goalSum rest.
Proof.
  induction pre as [|[k v] pre IH]; intros sum Hpos Hs Hfit Hlt.
  - simpl. by rewrite Z.add_0_r.
  - apply Forall_cons in Hpos as [Hv Hpos]. simpl in Hv.
    pose proof (sumZ_positive_nonneg pre Hpos).
    rewrite ?fmap_cons, ?sumZ_cons in *. simpl in *.
    assert (Hadd : GoInt.add sum v = sum + v).
    { apply add_exact. unfold GoInt.in_range, GoInt.minInt, GoInt.maxInt in *. lia. }
    rewrite Hadd. destruct (Z.leb_spec goalSum (sum + v)); [lia|].
    rewrite IH by (done || lia). f_equal. lia.
Qed.

(** The walk stops inside the entries whose sum reaches the goal. *)
Lemma GetNextToken_loop_within goalSum rest (pre : list (string * Z)) : ∀ sum,
  Forall (λ kv, 0 < kv.2) pre →
  0 ≤ sum → sum + sumZ pre.*2 ≤ GoInt.maxInt →
  pre ≠ [] →
  goalSum ≤ sum + sumZ pre.*2 →
  ∃ k, GetNextToken_loop sum goalSum (pre ++ rest) = Some k ∧ k ∈ pre.*1.
Proof.
  induction pre as [|[k v] pre IH]; intros sum Hpos Hs Hfit Hne Hle; [done|].
  apply Forall_cons in Hpos as [Hv Hpos]. simpl in Hv.
  pose proof (sumZ_positive_nonneg pre Hpos).
  rewrite ?fmap_cons, ?sumZ_cons in *. simpl in *.
  assert (Hadd : GoInt.add sum v = sum + v).
  { apply add_exact. unfold GoInt.in_range, GoInt.minInt, GoInt.maxInt in *. lia. }
  rewrite Hadd. destruct (Z.leb_spec goalSum (sum + v)).
  - exists k. split; [done | by left].
  - destruct (IH (sum + v)) as (k' & Hk' & Hin); [done|lia|lia| |lia|].
    + intros ->. simpl in *. lia.
    + exists k'. split; [done | by right].
Qed.

Lemma sumZ_positive_pos (entries : list (string * Z)) :
  Forall (λ kv, 0 < kv.2) entries → entries ≠ [] → 0 < sumZ entries.*2.
Proof.
  intros Hall Hne. destruct Hall as [|[k v] r Hv Hr]; [done|].
  pose proof (sumZ_positive_nonneg r Hr).
  rewrite fmap_cons, sumZ_cons. simpl in *. lia.
Qed.

Lemma GetNextToken_draws_aux (pre post : list (string * Z)) (k : string) (v : Z) :
  NoDup (pre ++ (k, v) :: post).*1 →
  Forall (λ kv, 0 < kv.2) (pre ++ (k, v) :: post) →
  sumZ (pre ++ (k, v) :: post).*2 ≤ GoInt.maxInt →
  Z.of_nat (draws_returning (pre ++ (k, v) :: post)
                            (sumZ (pre ++ (k, v) :: post).*2) k)
  = v + (if pre is [] then 1 else 0) - (if post is [] then 1 else 0).
Proof.
  intros Hnd Hpos Hfit.
  rewrite fmap_app, fmap_cons in Hnd. simpl in Hnd.
  apply NoDup_app in Hnd as (_ & Hpre & Hnd). apply NoDup_cons in Hnd as [Hpost _].
  apply Forall_app in Hpos as [Hp Hpos]. apply Forall_cons in Hpos as [Hv Hq].
  simpl in Hv.
  rewrite fmap_app, fmap_cons, sumZ_app, sumZ_cons in *. simpl in *.
  pose proof (sumZ_positive_nonneg pre Hp) as HP0.
  pose proof (sumZ_positive_nonneg post Hq) as HQ0.
  pose proof (sumZ_positive_pos pre Hp) as HP1.
  pose proof (sumZ_positive_pos post Hq) as HQ1.
  assert (HPnil : pre = [] → sumZ pre.*2 = 0) by (by intros ->).
  assert (HQnil : post = [] → sumZ post.*2 = 0) by (by intros ->).
  remember (sumZ pre.*2) as P eqn:HPdef. remember (sumZ post.*2) as Q eqn:HQdef.
  assert (Hcases : (pre = [] ∧ P = 0 ∨ pre ≠ [] ∧ 0 < P)
                   ∧ (post = [] ∧ Q = 0 ∨ post ≠ [] ∧ 0 < Q)).
  { split; [destruct pre|destruct post]; (by left; auto) || (right; auto). }
  clear HP1 HQ1 HPnil HQnil. destruct Hcases as [HPc HQc].
  unfold draws_returning.
  rewrite (count_interval _ (if pre is [] then 0 else P + 1)
             (if post is [] then P + v - 1 else P + v)).
  - clear HPdef HQdef. destruct HPc as [[-> ?]|[? ?]], HQc as [[-> ?]|[? ?]];
      try (destruct pre; [done|]); try (destruct post; [done|]); lia.
  - destruct pre; lia.
  - clear HPdef HQdef. destruct HPc as [[-> ?]|[? ?]], HQc as [[-> ?]|[? ?]];
      try (destruct pre; [done|]); try (destruct post; [done|]); lia.
  - clear HPdef HQdef.
    destruct HQc as [[-> ?]|[? ?]]; try (destruct post; [done|]); lia.
  - intros g Hg.
    assert (HP1 : pre ≠ [] → 0 < P) by (destruct HPc as [[? ?]|[? ?]]; done).
    assert (HQ1 : post ≠ [] → 0 < Q) by (destruct HQc as [[? ?]|[? ?]]; done).
    assert (Hadd : GoInt.add P v = P + v).
    { apply add_exact. unfold GoInt.in_range, GoInt.minInt, GoInt.maxInt in *. lia. }
    assert (Hhere : (pre = [] ∨ P < g) → g ≤ P + v →
                    GetNextToken_loop 0 g (pre ++ (k, v) :: post) = Some k).
    { intros Hlo Hhi.
      assert (GetNextToken_loop 0 g (pre ++ (k, v) :: post)
              = GetNextToken_loop P g ((k, v) :: post)) as ->.
      { destruct Hlo as [Hnil|Hlo].
        - destruct HPc as [[_ ->]|[? ?]]; [by rewrite Hnil | done].
        - rewrite GetNextToken_loop_skip by (done || lia).
          by rewrite <- HPdef, Z.add_0_l. }
      simpl. rewrite Hadd. by destruct (Z.leb_spec g (P + v)); [|lia]. }
    destruct (decide (pre ≠ [] ∧ g ≤ P)) as [[Hne Hle]|Hnot].
    + destruct (GetNextToken_loop_within g ((k, v) :: post) pre 0)
        as (k' & -> & Hin); [done|lia|lia|done|lia|].
      simpl. assert (0 < P) by by apply HP1. split.
      * intros ->. exfalso. apply (Hpre _ Hin). by left.
      * clear HPdef. destruct pre; [done | lia].
    + assert (Hlo : pre = [] ∨ P < g).
      { destruct pre; [by left|]. right.
        destruct (Z.lt_ge_cases P g); [done|]. destruct Hnot. split; [done | lia]. }
      destruct (Z.le_gt_cases g (P + v)) as [Hle|Hgt].
      * rewrite (Hhere Hlo Hle). simpl. split; [intros _ | done].
        clear HPdef HQdef Hhere HP1 HQ1 Hnot.
        destruct pre, post; destruct HPc as [[? ?]|[? ?]], HQc as [[? ?]|[? ?]],
          Hlo as [?|?]; try done; lia.
      * assert (GetNextToken_loop 0 g (pre ++ (k, v) :: post)
                = GetNextToken_loop (P + v) g (post ++ [])) as ->.
        { rewrite (cons_middle (k, v) pre post), app_assoc, app_nil_r.
          rewrite GetNextToken_loop_skip.
          - rewrite fmap_app, sumZ_app, <- HPdef. simpl. f_equal. lia.
          - apply Forall_app. split; [done|]. by constructor.
          - lia.
          - rewrite fmap_app, sumZ_app, <- HPdef. simpl. lia.
          - rewrite fmap_app, sumZ_app, <- HPdef. simpl. lia. }
        destruct (GetNextToken_loop_within g [] post (P + v))
          as (k' & -> & Hin); [done|lia|lia| |lia|].
        { intros ->. destruct HQc as [[_ ?]|[? _]]; [lia | done]. }
        simpl. split.
        -- intros ->. done.
        -- clear HQdef. destruct post; lia.
Qed.

(** X6. The draws of the sampler, exactly. On entries with distinct keys
    and positive counts whose sum fits Go's [int], of the draws
    [0 .. total-1] the entry visited first is returned for one draw more
    than its count, the entry visited last for one draw fewer, and every
    entry in between for as many draws as its count; an only entry is
    returned for all draws. *)
Theorem GetNextToken_draws (pre post : list (string * Z)) (k : string) (v : Z) :
  NoDup (pre ++ (k, v) :: post).*1 →
  Forall (λ kv, 0 < kv.2) (pre ++ (k, v) :: post) →
  sumZ (pre ++ (k, v) :: post).*2 ≤ GoInt.maxInt →
  Z.of_nat (draws_returning (pre ++ (k, v) :: post)
                            (sumZ (pre ++ (k, v) :: post).*2) k)
  = v + (if pre is [] then 1 else 0) - (if post is [] then 1 else 0).
Proof. apply GetNextToken_draws_aux. Qed.

Lemma GetNextToken_draws_witness :
  Z.of_nat (draws_returning ([("a", 2)] ++ ("b", 5) :: [("c", 1)])
                            (sumZ ([("a", 2)] ++ ("b", 5) :: [("c", 1)]).*2) "b")
  = 5 + 0 - 0.
Proof.
  apply (GetNextToken_draws [("a", 2)] [("c", 1)] "b" 5).
  - vm_compute. repeat constructor; set_solver.
  - repeat constructor; simpl; lia.
  - vm_compute. discriminate.
Defined.

(** ** Querying a built chain *)

Lemma GetNextToken_some (l : singleTokenLink) (entries : list (string * Z)) (rand : Rand) :
  range_order (NextTokenOccurrences l) entries →
  0 < Total l →
  GoInt.in_range (Total l) →
  Total l = sum_occurrences (NextTokenOccurrences l) →
  0 ≤ rand (Total l) < Total l →
  ∃ k v, GetNextToken l entries rand = Some k ∧ NextTokenOccurrences l !! k = Some v.
Proof.
  intros Hord Hpos Hrange Hsum Hgoal.
  assert (Hs : sumZ entries.*2 = Total l).
  { rewrite Hsum. unfold sum_occurrences. apply sumZ_perm. by apply fmap_Permutation. }
  destruct (GetNextToken_loop_reaches (rand (Total l)) entries 0) as (k & v & Hk & Hin).
  - unfold GoInt.in_range, GoInt.minInt, GoInt.maxInt. lia.
  - right. intros ->. simpl in Hs. lia.
  - rewrite Z.add_0_l, Hs, wrap_id by done. lia.
  - exists k, v. split.
    + unfold GetNextToken, Intn. destruct (Z.leb_spec (Total l) 0); [lia|]. by rewrite Hk.
    + apply elem_of_map_to_list. by rewrite <- Hord.
Qed.

Lemma count_token_nonneg p l : 0 ≤ count_token p l.
Proof. induction l as [|a l IH]; simpl; [done|]. destruct (decide (a = p)); lia. Qed.

Lemma count_token_elem p l : p ∈ l → 0 < count_token p l.
Proof.
  induction 1 as [a l|a b l _ IH]; simpl.
  - pose proof (count_token_nonneg a l). rewrite decide_True by done. lia.
  - destruct (decide (b = a)); lia.
Qed.

Lemma merged_streams_total_pos (streams : list (list string)) token :
  sumZ (transitions <$> streams) ≤ GoInt.maxInt →
  token ∈ dom (mergeChains (buildChain <$> streams)) →
  0 < link_total (mergeChains (buildChain <$> streams)) token.
Proof.
  intros Hfit Hdom.
  destruct (streams_chains_ok streams Hfit) as (Hk & Hi & Hw & Hb).
  destruct (mergeChains_adds_counts (buildChain <$> streams) token "" Hk Hi
              ltac:(lia)) as [_ ->].
  rewrite dom_mergeChains in Hdom by done.
  rewrite <- !list_fmap_compose in *.
  apply elem_of_union_list in Hdom as (X & HX & Hin).
  apply list_elem_of_fmap in HX as (ts & -> & Hts). simpl in Hin.
  rewrite dom_buildChain in Hin.
  assert (Hpos : 0 < link_total (buildChain ts) token).
  { apply Forall_forall with (x := ts) in Hb; [|done].
    destruct (buildChain_counts_aux ts token "" Hb) as [_ ->].
    apply count_token_elem. apply elem_of_union in Hin as [Hin|Hin].
    - apply elem_of_singleton in Hin as ->. by left.
    - right. by apply elem_of_list_to_set in Hin. }
  clear -Hts Hpos Hi.
  induction streams as [|t ss IH]; [by apply elem_of_nil in Hts|].
  rewrite fmap_cons in Hi. apply Forall_cons in Hi as [Hti Hi].
  rewrite fmap_cons, sumZ_cons. simpl.
  assert (Hnn : ∀ ss' : list (list string),
    Forall chain_invariant (buildChain <$> ss') →
    0 ≤ sumZ ((λ c : singleKeyChain, link_total c token) ∘ buildChain <$> ss')).
  { clear. induction ss' as [|t' ss' IH']; intros Hall; [done|].
    rewrite fmap_cons in Hall. apply Forall_cons in Hall as [Ht' Hall].
    rewrite fmap_cons, sumZ_cons. specialize (IH' Hall).
    pose proof (chain_total_le_weight (buildChain t') token Ht').
    unfold link_total in *. simpl. lia. }
  pose proof (chain_total_le_weight (buildChain t) token Hti).
  apply elem_of_cons in Hts as [->|Hts].
  - specialize (Hnn ss Hi). lia.
  - specialize (IH Hts Hi). unfold link_total in *. lia.
Qed.

(** X7. On the chain built from streams and merged, while the transitions
    fit Go's [int]: for a token that has a link, whatever order the range
    takes and whatever a random source that respects the bounds of [Intn]
    draws, [CalculateNextToken] does not panic, reports the key as present
    and returns a token that was recorded after that token at least
    once. *)
Theorem CalculateNextToken_recorded (streams : list (list string)) (token : string)
    (link : singleTokenLink) (entries : list (string * Z)) (rand : Rand) :
  sumZ (transitions <$> streams) ≤ GoInt.maxInt →
  mergeChains (buildChain <$> streams) !! token = Some link →
  range_order (NextTokenOccurrences link) entries →
  (∀ n, 0 < n → 0 ≤ rand n < n) →
  ∃ next,
    CalculateNextToken (mergeChains (buildChain <$> streams)) token entries rand
    = Some (next, true)
    ∧ 0 < transition_count (mergeChains (buildChain <$> streams)) token next.
Proof.
  intros Hfit Hl Hord Hrand.
  destruct (streams_chains_ok streams Hfit) as (Hk & Hi & Hw & Hb).
  assert (Hinv : link_invariant link).
  { eapply (mergeChains_invariant (buildChain <$> streams)); [done|lia|done]. }
  assert (Hpos : 0 < Total link).
  { pose proof (merged_streams_total_pos streams token Hfit) as H.
    unfold link_total in H. rewrite Hl in H. apply H. apply elem_of_dom. by exists link. }
  destruct (count_table_mergeChains (buildChain <$> streams) token link Hl)
    as (_ & Hrange & _).
  destruct (GetNextToken_some link entries rand Hord Hpos Hrange (proj1 Hinv))
    as (k & v & Hk' & Hv); [by apply Hrand|].
  exists k. unfold CalculateNextToken, transition_count. rewrite Hl, Hk'.
  split; [done|]. unfold occ_get. rewrite Hv. simpl. by apply (proj2 Hinv k).
Qed.

Lemma CalculateNextToken_recorded_witness :
  ∃ next,
    CalculateNextToken (mergeChains (buildChain <$> [["a"; "b"]; ["a"; "c"]])) "a"
      [("b", 1); ("c", 1)] (λ n, n - 1)
    = Some (next, true)
    ∧ 0 < transition_count (mergeChains (buildChain <$> [["a"; "b"]; ["a"; "c"]])) "a" next.
Proof.
  apply (CalculateNextToken_recorded [["a"; "b"]; ["a"; "c"]] "a"
           (mkLink "a" {[ "b" := 1; "c" := 1 ]} 2) [("b", 1); ("c", 1)] (λ n, n - 1)).
  - vm_compute. discriminate.
  - vm_compute. reflexivity.
  - unfold range_order. vm_compute. reflexivity || apply perm_swap.
  - intros n Hn. lia.
Defined.

(** X8. [RetrieveNextTokenPossibilities] returns every recorded next token
    of the link exactly once, in whatever order the range takes, and these
    are the tokens for which [GetProbabilityOfToken] reports present. *)
Theorem RetrieveNextTokenPossibilities_recorded (l : singleTokenLink)
    (entries : list (string * Z)) :
  range_order (NextTokenOccurrences l) entries →
  NoDup (RetrieveNextTokenPossibilities entries)
  ∧ length (RetrieveNextTokenPossibilities entries) = size (NextTokenOccurrences l)
  ∧ ∀ k, k ∈ RetrieveNextTokenPossibilities entries
         ↔ (GetProbabilityOfToken l k).2 = true.
Proof.
  unfold range_order, RetrieveNextTokenPossibilities. intros Hord.
  assert (Hp : entries.*1 ≡ₚ (map_to_list (NextTokenOccurrences l)).*1)
    by by apply fmap_Permutation.
  split; [|split].
  - rewrite Hp. apply NoDup_fst_map_to_list.
  - by rewrite Hp, length_fmap, length_map_to_list.
  - intros k. rewrite Hp. unfold GetProbabilityOfToken.
    rewrite list_elem_of_fmap. split.
    + intros ([k' v] & -> & Hin). apply elem_of_map_to_list in Hin. simpl. by rewrite Hin.
    + destruct (NextTokenOccurrences l !! k) as [v|] eqn:Hk; [|done].
      intros _. exists (k, v). split; [done|]. by apply elem_of_map_to_list.
Qed.

Lemma RetrieveNextTokenPossibilities_recorded_witness :
  NoDup (RetrieveNextTokenPossibilities [("x", 1); ("y", 3)])
  ∧ length (RetrieveNextTokenPossibilities [("x", 1); ("y", 3)])
    = size (NextTokenOccurrences link_x1_y3)
  ∧ ∀ k, k ∈ RetrieveNextTokenPossibilities [("x", 1); ("y", 3)]
         ↔ (GetProbabilityOfToken link_x1_y3 k).2 = true.
Proof.
  apply (RetrieveNextTokenPossibilities_recorded link_x1_y3 [("x", 1); ("y", 3)]).
  unfold range_order. vm_compute. apply perm_swap.
Defined.

(** ** The prefix filter *)

Lemma stripPrefix_Some s prefix r :
  stripPrefix s prefix = Some r ↔ s = prefix +:+ r.
Proof.
  revert s. induction prefix as [|p prefix IH]; intros s; simpl.
  - split; [by intros [= ->] | by intros ->].
  - destruct s as [|c s]; [done|].
    destruct (decide (c = p)) as [->|Hne].
    + rewrite IH. split; [by intros -> | by intros [= ->]].
    + split; [done | intros [= ? _]; done].
Qed.

Lemma length_string_app s1 s2 :
  String.length (s1 +:+ s2) = (String.length s1 + String.length s2)%nat.
Proof. induction s1 as [|c s1 IH]; simpl; [done | by rewrite IH]. Qed.

Lemma string_app_assoc s1 s2 s3 : (s1 +:+ s2) +:+ s3 = s1 +:+ (s2 +:+ s3).
Proof.
  induction s1 as [|c s1 IH]; [done|].
  change (String c ((s1 +:+ s2) +:+ s3) = String c (s1 +:+ (s2 +:+ s3))).
  by rewrite IH.
Qed.

Lemma TrimPrefix_shorter s prefix :
  TrimPrefix s prefix ≠ s →
  (String.length (TrimPrefix s prefix) < String.length s)%nat
  ∧ s = prefix +:+ TrimPrefix s prefix.
Proof.
  unfold TrimPrefix. destruct (stripPrefix s prefix) as [r|] eqn:Hr; simpl; [|done].
  apply stripPrefix_Some in Hr as ->. intros Hne. split; [|done].
  rewrite length_string_app. destruct prefix; [done | simpl; lia].
Qed.

Lemma prefixLoop_returns prefix fuel : ∀ trimmed,
  (String.length trimmed < fuel)%nat →
  ∃ n r, prefixLoop fuel prefix trimmed = Some r
         ∧ trimmed = repeat_string prefix n +:+ r
         ∧ (r = "" ∨ TrimPrefix r prefix = r).
Proof.
  induction fuel as [|fuel IH]; intros trimmed Hlen; [lia|].
  cbn [prefixLoop]. destruct (decide (trimmed = "")) as [->|Hne].
  - exists 0%nat, "". split; [done|]. split; [done | by left].
  - destruct (decide (TrimPrefix trimmed prefix = trimmed)) as [Heq|Hneq].
    + exists 0%nat, trimmed. split; [done|]. split; [done | by right].
    + destruct (TrimPrefix_shorter _ _ Hneq) as [Hlt Happ].
      destruct (IH (TrimPrefix trimmed prefix)) as (n & r & Hr & Hrep & Hend); [lia|].
      exists (S n), r. split; [done|]. split; [|done].
      transitivity (prefix +:+ (repeat_string prefix n +:+ r)).
      * by rewrite <- Hrep.
      * cbn [repeat_string]. by rewrite string_app_assoc.
Qed.

(** X11. The iterating prefix filter, for a prefix that is not empty,
    passes on exactly one token: the candidate without all the copies of
    the prefix it starts with. What is passed on does not start with the
    prefix any more, and it is the empty token when the candidate consists
    of copies of the prefix only. *)
Theorem PrefixFilter_iterate (prefix candidate : string) :
  prefix ≠ "" →
  ∃ n r, PrefixFilter prefix true candidate = ([r], None)
         ∧ candidate = repeat_string prefix n +:+ r
         ∧ stripPrefix r prefix = None
         ∧ (candidate = repeat_string prefix n → r = "").
Proof.
  intros Hne. unfold PrefixFilter, MakeFuncFilter.
  destruct (prefixLoop_returns prefix (S (String.length candidate)) candidate)
    as (n & r & -> & Hrep & Hend); [lia|].
  exists n, r. split; [done|]. split; [done|]. split.
  - destruct (stripPrefix r prefix) as [r'|] eqn:Hr'; [|done].
    destruct Hend as [->|Heq].
    + destruct prefix; [done | simpl in Hr'; done].
    + unfold TrimPrefix in Heq. rewrite Hr' in Heq. simpl in Heq. subst r'.
      apply stripPrefix_Some in Hr'.
      apply (f_equal String.length) in Hr'. rewrite length_string_app in Hr'.
      destruct prefix; [done | simpl in Hr'; lia].
  - intros Hc. rewrite Hc in Hrep at 1.
    apply (f_equal String.length) in Hrep. rewrite length_string_app in Hrep.
    destruct r; [done | simpl in Hrep; lia].
Qed.

Lemma PrefixFilter_iterate_witness :
  ∃ n r, PrefixFilter "ab" true "ababac" = ([r], None)
         ∧ "ababac" = repeat_string "ab" n +:+ r
         ∧ stripPrefix r "ab" = None
         ∧ ("ababac" = repeat_string "ab" n → r = "").
Proof. apply (PrefixFilter_iterate "ab" "ababac"). discriminate. Defined.

(** ** Filtered sources: failures and one-to-one filters *)

Lemma filtered_tokens_app_fail filter before c after e expansion e' :
  Forall (λ c, (filter c).2 = None) before →
  filter c = (expansion, Some e') →
  filtered_tokens filter (before ++ c :: after) e
  = (before ≫= (λ c, (filter c).1), e').
Proof.
  intros Hok Hc. induction Hok as [|b before Hb _ IH].
  - simpl. by rewrite Hc.
  - cbn [app filtered_tokens]. rewrite bind_cons, IH.
    by destruct (filter b) as [x [?|]].
Qed.

(** X9. When the filter fails on a candidate, the filtered source delivers
    the expansions of the candidates before it, in order, and then fails
    with the filter's error: what the filter returned for the failing
    candidate is not passed on, and the wrapped source's later tokens and
    its own end are not seen. *)
Theorem filteredSource_filter_fails (src : TokenSource) (filter : SourceFilter)
    (before after : list string) (c : string) (e e' : error) (expansion : list string) :
  drains src (before ++ c :: after) e →
  Forall (λ c, (filter c).2 = None) before →
  filter c = (expansion, Some e') →
  drains (filteredSource src filter [] 0%nat) (before ≫= (λ c, (filter c).1)) e'.
Proof.
  intros Hd Hok Hc.
  pose proof (drains_filteredSource filter src _ e Hd [] 0%nat) as H.
  by rewrite (filtered_tokens_app_fail _ _ _ _ _ _ _ Hok Hc) in H.
Qed.

Lemma filteredSource_filter_fails_witness :
  drains (filteredSource (bufioScannerSource (newScanner ["x"; "bad"; "y"] None))
                         (rejecting_filter "bad") [] 0%nat)
         (["x"] ≫= (λ c, (rejecting_filter "bad" c).1)) (Failure "rejected").
Proof.
  apply (filteredSource_filter_fails
           (bufioScannerSource (newScanner ["x"; "bad"; "y"] None))
           (rejecting_filter "bad") ["x"] ["y"] "bad" EOF (Failure "rejected") []).
  - apply drains_bufioScannerSource.
  - repeat constructor.
  - reflexivity.
Defined.

Lemma drains_one_to_one filter (f : string → string) src tokens e :
  (∀ c, filter c = ([f c], None)) →
  drains src tokens e →
  drains (filteredSource src filter [] 0%nat) (f <$> tokens) e.
Proof.
  intros Hf Hd.
  pose proof (drains_filteredSource filter src tokens e Hd [] 0%nat) as H.
  rewrite filtered_tokens_flat_map in H.
  - simpl in H. replace (f <$> tokens) with (tokens ≫= (λ c, (filter c).1)); [done|].
    clear -Hf. induction tokens as [|t ts IH]; [done|].
    by rewrite bind_cons, fmap_cons, IH, Hf.
  - apply Forall_forall. intros c _. by rewrite Hf.
Qed.

Lemma PrefixFilter_one_to_one prefix c :
  ∃ r, PrefixFilter prefix true c = ([r], None).
Proof.
  unfold PrefixFilter, MakeFuncFilter.
  destruct (prefixLoop_returns prefix (S (String.length c)) c) as (n & r & -> & _); [lia|].
  by exists r.
Qed.

(** X10. The stock filters neither fail nor drop nor split a token: a
    source filtered by the lowercase, trim, substitution or prefix filter
    delivers one token for each token of the wrapped source, in the same
    order, and ends as the wrapped source ends. For the substitution filter
    the token is the substitution of the candidate, or the candidate when
    it has none. *)
Theorem stock_filters_one_to_one (src : TokenSource) (tokens : list string) (e : error) :
  drains src tokens e →
  drains (filteredSource src LowercaseFilter [] 0%nat) (ToLower <$> tokens) e
  ∧ drains (filteredSource src TrimFilter [] 0%nat) (TrimSpace <$> tokens) e
  ∧ (∀ substitutions,
       drains (filteredSource src (SubstitutionFilter substitutions) [] 0%nat)
              ((λ c, default c (substitutions !! c)) <$> tokens) e)
  ∧ (∀ prefix,
       drains (filteredSource src (PrefixFilter prefix false) [] 0%nat)
              ((λ c, TrimPrefix c prefix) <$> tokens) e)
  ∧ (∀ prefix, ∃ out,
       drains (filteredSource src (PrefixFilter prefix true) [] 0%nat) out e
       ∧ length out = length tokens).
Proof.
  intros Hd. split; [|split; [|split; [|split]]].
  - by apply drains_one_to_one.
  - by apply drains_one_to_one.
  - intros m. apply drains_one_to_one; [|done].
    intros c. unfold SubstitutionFilter, MakeFuncFilter. by destruct (m !! c).
  - intros prefix. by apply drains_one_to_one.
  - intros prefix.
    exists ((λ c, default c (prefixLoop (S (String.length c)) prefix c)) <$> tokens).
    split; [|by rewrite length_fmap].
    apply drains_one_to_one; [|done].
    intros c. destruct (PrefixFilter_one_to_one prefix c) as [r Hr].
    unfold PrefixFilter, MakeFuncFilter in *.
    by destruct (prefixLoop (S (String.length c)) prefix c).
Qed.

Lemma stock_filters_one_to_one_witness :
  drains (filteredSource (bufioScannerSource (newScanner ["Ab"; " c "] None))
                         LowercaseFilter [] 0%nat) (ToLower <$> ["Ab"; " c "]) EOF.
Proof.
  apply (stock_filters_one_to_one
           (bufioScannerSource (newScanner ["Ab"; " c "] None)) ["Ab"; " c "] EOF).
  apply drains_bufioScannerSource.
Defined.

(** ** What the builds return *)

(** X12. When every source delivers finitely many tokens and then
    [io.EOF], [BuildChainFromSources] returns, and the only thing it can
    return, however the goroutines are scheduled and in whatever order the
    chains are handed over and the maps are visited, is the merge of the
    chains of the sources' tokens with a nil error. *)
Theorem BuildChainFromSources_success (tokenSources : list TokenSource)
    (tokenss : list (list string)) (out : Outcome) :
  Forall2 (λ s tokens, drains s tokens EOF) tokenSources tokenss →
  BuildChainFromSources tokenSources out
  ↔ out = (Some (mergeChains (buildChain <$> tokenss)), None).
Proof. apply BuildChainFromSources_all_eof. Qed.

Lemma BuildChainFromSources_success_witness :
  BuildChainFromSources
    [bufioScannerSource (newScanner ["a"; "b"] None);
     externalSource (λ n, if decide (n = 0%nat) then ("c", None) else ("", Some EOF)) 0]
    (Some (mergeChains (buildChain <$> [["a"; "b"]; ["c"]])), None).
Proof.
  apply (BuildChainFromSources_success
           [bufioScannerSource (newScanner ["a"; "b"] None);
            externalSource (λ n, if decide (n = 0%nat) then ("c", None) else ("", Some EOF)) 0]
           [["a"; "b"]; ["c"]]); [|reflexivity].
  constructor; [apply drains_bufioScannerSource|].
  constructor; [|constructor].
  eapply drains_token; [by exists 1%nat|]. eapply drains_end. by exists 1%nat.
Defined.

(** X13. [MakeFilteredTokenSources] puts the one filter before every
    source: when the sources end with [io.EOF] and the filter fails on none
    of their tokens, the build over the filtered sources returns exactly
    the merge of the chains of the filtered streams. *)
Theorem MakeFilteredTokenSources_build (filter : SourceFilter)
    (sources : list TokenSource) (tokenss : list (list string)) (out : Outcome) :
  Forall2 (λ s tokens, drains s tokens EOF) sources tokenss →
  Forall (Forall (λ c, (filter c).2 = None)) tokenss →
  BuildChainFromSources (MakeFilteredTokenSources filter sources) out
  ↔ out = (Some (mergeChains
                   (buildChain <$> ((λ tokens, tokens ≫= (λ c, (filter c).1)) <$> tokenss))),
           None).
Proof.
  intros Hd Hok. apply BuildChainFromSources_all_eof.
  unfold MakeFilteredTokenSources. rewrite Forall2_fmap_l, Forall2_fmap_r.
  induction Hd as [|s ts ss tss Hs _ IH]; [constructor|].
  apply Forall_cons in Hok as [Hts Hok]. constructor; [|by apply IH].
  simpl. pose proof (drains_filteredSource filter s ts EOF Hs [] 0%nat) as H.
  by rewrite filtered_tokens_flat_map in H.
Qed.

Lemma MakeFilteredTokenSources_build_witness :
  BuildChainFromSources
    (MakeFilteredTokenSources LowercaseFilter
       [bufioScannerSource (newScanner ["A"; "b"] None);
        bufioScannerSource (newScanner ["B"] None)])
    (Some (mergeChains (buildChain <$> [["a"; "b"]; ["b"]])), None).
Proof.
  apply (MakeFilteredTokenSources_build LowercaseFilter
           [bufioScannerSource (newScanner ["A"; "b"] None);
            bufioScannerSource (newScanner ["B"] None)] [["A"; "b"]; ["B"]]);
    [| |reflexivity].
  - constructor; [apply drains_bufioScannerSource|].
    constructor; [apply drains_bufioScannerSource | constructor].
  - repeat constructor.
Defined.

(** X14. What the version of [BuildChainFromScanners] that feeds the
    channels itself can return, however the goroutines are scheduled: when
    no scanner fails, the merge of the chains of the scanners' tokens with
    the empty tokens left out, and nothing else; when scanners fail, the
    error of any failing scanner with a nil chain, and nothing else. *)
Theorem Channels_BuildChainFromScanners_returns (tokenSources : list Scanner)
    (out : Outcome) :
  Channels.BuildChainFromScanners tokenSources out ↔
    (Forall (λ sc, sc_failure sc = None) tokenSources
     ∧ out = (Some (mergeChains
                      (buildChain <$> ((λ sc, nonempty_tokens (sc_tokens sc)) <$> tokenSources))),
              None))
    ∨ (∃ i sc msg, tokenSources !! i = Some sc ∧ sc_failure sc = Some msg
                   ∧ out = (None, Some (Failure msg))).
Proof. apply Channels_returns. Qed.

(** X15. What [BuildChainFromScanners] over [SourcesFromScanners] and
    [BuildChainFromSources] can return: when no scanner fails, the merge of
    the chains of all the scanners' tokens, empty tokens included, and
    nothing else; when scanners fail, the error of any failing scanner with
    a nil chain, and nothing else. *)
Theorem Adapter_BuildChainFromScanners_returns (tokenSources : list Scanner)
    (out : Outcome) :
  Adapter.BuildChainFromScanners tokenSources out ↔
    (Forall (λ sc, sc_failure sc = None) tokenSources
     ∧ out = (Some (mergeChains (buildChain <$> (sc_tokens <$> tokenSources))), None))
    ∨ (∃ i sc msg, tokenSources !! i = Some sc ∧ sc_failure sc = Some msg
                   ∧ out = (None, Some (Failure msg))).
Proof. apply Adapter_returns. Qed.

(** ** A filter that drops everything from an endless source *)

Lemma filterLoop_endless script filter queue index :
  (∀ n, ∃ c, script n = (c, None) ∧ filter c = ([], None)) →
  ∀ k fuel calls,
    filterLoop (NextToken fuel) filter queue index k (externalSource script calls) = None.
Proof.
  intros Hdrop. induction k as [|k IH]; intros fuel calls; [done|].
  cbn [filterLoop]. destruct fuel as [|fuel]; [done|].
  change (NextToken (S fuel) (externalSource script calls))
    with (Some (script calls, externalSource script (S calls))).
  destruct (Hdrop calls) as (c & Hs & Hf). rewrite Hs, Hf. apply IH.
Qed.

Lemma NextToken_endless script filter queue index calls :
  (∀ n, ∃ c, script n = (c, None) ∧ filter c = ([], None)) →
  (length queue ≤ index)%nat →
  ∀ fuel, NextToken fuel (filteredSource (externalSource script calls) filter queue index)
          = None.
Proof.
  intros Hdrop Hle fuel. destruct fuel as [|fuel]; [done|]. cbn [NextToken].
  destruct (Nat.ltb_spec index (length queue)); [lia|].
  destruct (if (length queue =? 0)%nat then (queue, index) else ([], 0%nat)) as [q' i'].
  by apply filterLoop_endless.
Qed.

(** X16. A filtered source over a source that delivers tokens without end,
    with a filter that turns each of them into no token, never returns from
    [NextToken]: the loop runs on, whatever the fuel. A build that has this
    source among its sources never returns a chain, and a build that has
    only this source never returns. *)
Theorem filteredSource_endless (script : nat → Result) (filter : SourceFilter)
    (queue : list string) (index calls : nat) :
  (∀ n, ∃ c, script n = (c, None) ∧ filter c = ([], None)) →
  (length queue ≤ index)%nat →
  let src := filteredSource (externalSource script calls) filter queue index in
  (∀ fuel, NextToken fuel src = None)
  ∧ (∀ before after out,
       BuildChainFromSources (before ++ src :: after) out → out.1 = None)
  ∧ (∀ out, ¬ BuildChainFromSources [src] out).
Proof.
  intros Hdrop Hle src.
  assert (Hnone : ∀ fuel, NextToken fuel src = None) by by apply NextToken_endless.
  assert (Hnd : ∀ tokens e, ¬ drains src tokens e).
  { intros tokens e Hd. inversion Hd as [? ? ? ? [n Hn]|? ? ? ? ? [n Hn]]; subst;
      by rewrite Hnone in Hn. }
  split; [done|]. split.
  - intros before after out Hout.
    apply BuildChainFromSources_returns in Hout
      as [(tss & Hall & ->)|(i & s & ts & e & _ & _ & _ & ->)]; [|done].
    apply Forall2_app_inv_l in Hall as (tss1 & tss2 & _ & Hall & _).
    apply Forall2_cons_inv_l in Hall as (ts & ? & Hd & _ & _). by apply Hnd in Hd.
  - intros out Hout.
    apply BuildChainFromSources_returns in Hout
      as [(tss & Hall & ->)|(i & s & ts & e & Hi & Hd & _ & ->)].
    + apply Forall2_cons_inv_l in Hall as (ts & ? & Hd & _ & _). by apply Hnd in Hd.
    + destruct i as [|i]; [|done]. simpl in Hi. injection Hi as <-. by apply Hnd in Hd.
Qed.

Lemma filteredSource_endless_witness :
  let src := filteredSource (externalSource (λ _, ("x", None)) 0) (λ _, ([], None)) [] 0%nat in
  (∀ fuel, NextToken fuel src = None)
  ∧ (∀ before after out,
       BuildChainFromSources (before ++ src :: after) out → out.1 = None)
  ∧ (∀ out, ¬ BuildChainFromSources [src] out).
Proof.
  apply (filteredSource_endless (λ _, ("x", None)) (λ _, ([], None)) [] 0%nat 0%nat).
  - intros n. by exists "x".
  - simpl. lia.
Defined.

(** X17. A filter that fails with [io.EOF] ends the stream without an
    error: the build over the filtered source returns, and can only
    return, the chain of the expansions of the candidates before the one
    the filter failed on, with a nil error. *)
Theorem filter_EOF_ends_stream (src : TokenSource) (filter : SourceFilter)
    (before after : list string) (c : string) (e : error) (expansion : list string)
    (out : Outcome) :
  drains src (before ++ c :: after) e →
  Forall (λ c, (filter c).2 = None) before →
  filter c = (expansion, Some EOF) →
  BuildChainFromSources [filteredSource src filter [] 0%nat] out
  ↔ out = (Some (buildChain (before ≫= (λ c, (filter c).1))), None).
Proof.
  intros Hd Hok Hc.
  rewrite (BuildChainFromSources_all_eof _ [before ≫= (λ c, (filter c).1)]).
  - assert (mergeChains (buildChain <$> [before ≫= (λ c, (filter c).1)])
            = buildChain (before ≫= (λ c, (filter c).1))) as ->; [|done].
    unfold mergeChains, mergeChains_visiting. simpl.
    apply mergeLink_canonical_id, count_table_buildChain.
  - constructor; [|constructor].
    pose proof (drains_filteredSource filter src _ e Hd [] 0%nat) as H.
    by rewrite (filtered_tokens_app_fail _ _ _ _ _ _ _ Hok Hc) in H.
Qed.

Lemma filter_EOF_ends_stream_witness :
  BuildChainFromSources
    [filteredSource (bufioScannerSource (newScanner ["x"; "stop"; "y"] None))
       (λ c, if decide (c = "stop") then ([], Some EOF) else ([c], None)) [] 0%nat]
    (Some (buildChain ["x"]), None).
Proof.
  apply (filter_EOF_ends_stream
           (bufioScannerSource (newScanner ["x"; "stop"; "y"] None))
           (λ c, if decide (c = "stop") then ([], Some EOF) else ([c], None))
           ["x"] ["y"] "stop" EOF []); [| | |reflexivity].
  - apply drains_bufioScannerSource.
  - repeat constructor.
  - reflexivity.
Defined.

(** ** The chain is its pair counts *)

Lemma occurrences_ext (m1 m2 : gmap string Z) :
  (∀ k v, m1 !! k = Some v → 0 < v) →
  (∀ k v, m2 !! k = Some v → 0 < v) →
  (∀ k, occ_get m1 k = occ_get m2 k) →
  m1 = m2.
Proof.
  intros H1 H2 Heq. apply map_eq. intros k. specialize (Heq k). unfold occ_get in Heq.
  destruct (m1 !! k) as [v1|] eqn:E1, (m2 !! k) as [v2|] eqn:E2; simpl in Heq.
  - by subst.
  - apply H1 in E1. lia.
  - apply H2 in E2. lia.
  - done.
Qed.

Lemma merged_streams_ext (streams1 streams2 : list (list string)) :
  sumZ (transitions <$> streams1) ≤ GoInt.maxInt →
  sumZ (transitions <$> streams2) ≤ GoInt.maxInt →
  (∀ prev next,
     sumZ ((λ tokens, count_pairs prev next (with_sentinels tokens)) <$> streams1)
     = sumZ ((λ tokens, count_pairs prev next (with_sentinels tokens)) <$> streams2)) →
  (∀ prev,
     sumZ ((λ tokens, count_token prev ("" :: tokens)) <$> streams1)
     = sumZ ((λ tokens, count_token prev ("" :: tokens)) <$> streams2)) →
  mergeChains (buildChain <$> streams1) = mergeChains (buildChain <$> streams2).
Proof.
  intros Hfit1 Hfit2 Hpairs Htok.
  set (c1 := mergeChains (buildChain <$> streams1)).
  set (c2 := mergeChains (buildChain <$> streams2)).
  destruct (streams_chains_ok streams1 Hfit1) as (Hk1 & Hi1 & Hw1 & _).
  destruct (streams_chains_ok streams2 Hfit2) as (Hk2 & Hi2 & Hw2 & _).
  assert (Hinv1 : chain_invariant c1) by (apply mergeChains_invariant; [done | lia]).
  assert (Hinv2 : chain_invariant c2) by (apply mergeChains_invariant; [done | lia]).
  assert (Hcount : ∀ p n, transition_count c1 p n = transition_count c2 p n).
  { intros p n.
    destruct (merged_streams_counts_aux streams1 p n Hfit1) as [H1 _].
    destruct (merged_streams_counts_aux streams2 p n Hfit2) as [H2 _].
    unfold c1, c2. rewrite H1, H2. apply Hpairs. }
  assert (Htot : ∀ p, link_total c1 p = link_total c2 p).
  { intros p.
    destruct (merged_streams_counts_aux streams1 p "" Hfit1) as [_ H1].
    destruct (merged_streams_counts_aux streams2 p "" Hfit2) as [_ H2].
    unfold c1, c2. rewrite H1, H2. apply Htok. }
  assert (Hlink : ∀ p l1 l2, c1 !! p = Some l1 → c2 !! p = Some l2 → l1 = l2).
  { intros p l1 l2 E1 E2.
    destruct (count_table_mergeChains _ _ _ E1) as (Ht1 & _).
    destruct (count_table_mergeChains _ _ _ E2) as (Ht2 & _).
    specialize (Htot p). unfold link_total in Htot. rewrite E1, E2 in Htot. simpl in Htot.
    assert (NextTokenOccurrences l1 = NextTokenOccurrences l2).
    { apply occurrences_ext.
      - apply (Hinv1 p l1 E1).
      - apply (Hinv2 p l2 E2).
      - intros n. specialize (Hcount p n). unfold transition_count in Hcount.
        by rewrite E1, E2 in Hcount. }
    destruct l1, l2. simpl in *. by subst. }
  apply map_eq. intros p.
  destruct (c1 !! p) as [l1|] eqn:E1, (c2 !! p) as [l2|] eqn:E2.
  - f_equal. by eapply Hlink.
  - assert (Hpos : 0 < link_total c1 p).
    { apply merged_streams_total_pos; [done|]. apply elem_of_dom. by exists l1. }
    rewrite Htot in Hpos. unfold link_total in Hpos. rewrite E2 in Hpos.
    simpl in Hpos. lia.
  - assert (Hpos : 0 < link_total c2 p).
    { apply merged_streams_total_pos; [done|]. apply elem_of_dom. by exists l2. }
    rewrite <- Htot in Hpos. unfold link_total in Hpos. rewrite E1 in Hpos.
    simpl in Hpos. lia.
  - done.
Qed.

(** X18. The merged chain is determined by the pair counts: two
    collections of streams, each within Go's [int], in which every pair of
    tokens follows one another equally often, sentinels included, and
    every token occurs equally often, give equal chains, link for link. *)
Theorem merged_chain_determined_by_counts (streams1 streams2 : list (list string)) :
  sumZ (transitions <$> streams1) ≤ GoInt.maxInt →
  sumZ (transitions <$> streams2) ≤ GoInt.maxInt →
  (∀ prev next,
     sumZ ((λ tokens, count_pairs prev next (with_sentinels tokens)) <$> streams1)
     = sumZ ((λ tokens, count_pairs prev next (with_sentinels tokens)) <$> streams2)) →
  (∀ prev,
     sumZ ((λ tokens, count_token prev ("" :: tokens)) <$> streams1)
     = sumZ ((λ tokens, count_token prev ("" :: tokens)) <$> streams2)) →
  mergeChains (buildChain <$> streams1) = mergeChains (buildChain <$> streams2).
Proof. apply merged_streams_ext. Qed.

Lemma merged_chain_determined_by_counts_witness :
  mergeChains (buildChain <$> [["a"; "b"]; ["c"]])
  = mergeChains (buildChain <$> [["c"]; ["a"; "b"]]).
Proof.
  apply (merged_chain_determined_by_counts [["a"; "b"]; ["c"]] [["c"]; ["a"; "b"]]).
  - vm_compute. discriminate.
  - vm_compute. discriminate.
  - intros prev next. rewrite !fmap_cons, !sumZ_cons. simpl. lia.
  - intros prev. rewrite !fmap_cons, !sumZ_cons. simpl. lia.
Defined.

Lemma count_pairs_split p n x l1 l2 :
  count_pairs p n (l1 ++ x :: l2) = count_pairs p n (l1 ++ [x]) + count_pairs p n (x :: l2).
Proof.
  induction l1 as [|a [|b l1] IH].
  - simpl. destruct l2; lia.
  - simpl in *. destruct l2; lia.
  - change ((a :: b :: l1) ++ x :: l2) with (a :: (b :: l1) ++ x :: l2).
    change ((a :: b :: l1) ++ [x]) with (a :: (b :: l1) ++ [x]).
    cbn [count_pairs app] in *. rewrite IH. lia.
Qed.

Lemma with_sentinels_split p n tokens1 tokens2 :
  count_pairs p n (with_sentinels (tokens1 ++ "" :: tokens2))
  = count_pairs p n (with_sentinels tokens1) + count_pairs p n (with_sentinels tokens2).
Proof.
  unfold with_sentinels.
  replace ("" :: (tokens1 ++ "" :: tokens2) ++ [""])
    with (("" :: tokens1) ++ "" :: (tokens2 ++ [""]))
    by (simpl; by rewrite <- app_assoc).
  by rewrite count_pairs_split.
Qed.

Lemma count_token_sentinel_split p tokens1 tokens2 :
  count_token p ("" :: tokens1 ++ "" :: tokens2)
  = count_token p ("" :: tokens1) + count_token p ("" :: tokens2).
Proof.
  change ("" :: tokens1 ++ "" :: tokens2) with (("" :: tokens1) ++ "" :: tokens2).
  by rewrite count_token_app.
Qed.

(** X19. An empty token inside a stream acts as a stream boundary: while
    the transitions fit Go's [int], the chain of a stream that holds the
    empty token is, link for link, the merge of the chains of the part
    before it and the part after it, because the empty token is the
    sentinel. *)
Theorem empty_token_splits_stream (tokens1 tokens2 : list string) :
  transitions (tokens1 ++ "" :: tokens2) ≤ GoInt.maxInt →
  buildChain (tokens1 ++ "" :: tokens2)
  = mergeChains [buildChain tokens1; buildChain tokens2].
Proof.
  intros Hfit.
  assert (Hlen : transitions (tokens1 ++ "" :: tokens2)
                 = transitions tokens1 + transitions tokens2).
  { unfold transitions. rewrite length_app. simpl. lia. }
  assert (Hid : buildChain (tokens1 ++ "" :: tokens2)
                = mergeChains (buildChain <$> [tokens1 ++ "" :: tokens2])).
  { unfold mergeChains, mergeChains_visiting. simpl. symmetry.
    apply mergeLink_canonical_id, count_table_buildChain. }
  rewrite Hid.
  apply (merged_streams_ext [tokens1 ++ "" :: tokens2] [tokens1; tokens2]).
  - rewrite fmap_cons, sumZ_cons. simpl. lia.
  - rewrite !fmap_cons, !sumZ_cons. simpl. lia.
  - intros prev next.
    rewrite !fmap_cons, !sumZ_cons, with_sentinels_split. simpl. lia.
  - intros prev. rewrite !fmap_cons, !sumZ_cons, count_token_sentinel_split.
    simpl. lia.
Qed.

Lemma empty_token_splits_stream_witness :
  buildChain (["a"; "b"] ++ "" :: ["c"])
  = mergeChains [buildChain ["a"; "b"]; buildChain ["c"]].
Proof.
  apply (empty_token_splits_stream ["a"; "b"] ["c"]).
  vm_compute. discriminate.
Defined.
